(** * hikari-miru: interaction routing and view dispatch

    A shallow embedding of [miru/events.py] (the process-wide
    [EventManager] registry and the [on_inter] dispatcher) and of the
    stateful core of [miru/view.py] ([View.is_persistent],
    [View.last_context], [View._handle_callback],
    [View._process_interactions], [View.start_listener]), followed by the
    properties of the routing and lifecycle contract.

    Python objects are mutable and are shared by reference, so every
    operation is a computation over an explicit store.  An exception keeps
    the store as it was when it was raised: the store is threaded through
    both outcomes. *)

From stdpp Require Import gmap strings list fin_maps.
From Stdlib Require Import ZArith Lia.

Set Default Proof Using "Type".

(** ** Python exceptions *)

(** The exception classes the modelled code raises or lets through.
    [CancelledError] (asyncio, Python 3.8 and later: the sources use the
    walrus operator), [KeyboardInterrupt] and [SystemExit] derive from
    [BaseException] only; user code may define classes on either side. *)
Inductive ExceptionClass : Type :=
  | KeyError
  | ValueError
  | TypeError
  | AssertionError
  | AttributeError
  | RuntimeError
  | CancelledError
  | KeyboardInterrupt
  | SystemExit
  | UserException (name : string)
  | UserBaseException (name : string).

Record PyException : Type := mkException {
  exc_class : ExceptionClass;
  exc_message : string
}.

(** [isinstance(error, Exception)], the filter of [except Exception]. *)
Definition isinstance_Exception (error : PyException) : bool :=
  match exc_class error with
  | CancelledError | KeyboardInterrupt | SystemExit | UserBaseException _ => false
  | _ => true
  end.

(** ** Computations over a store *)

Inductive Outcome (A : Type) : Type :=
  | Returned (a : A)
  | Raised (error : PyException).
Arguments Returned {A} a.
Arguments Raised {A} error.

Definition Py (S A : Type) : Type := S → Outcome A * S.

#[global] Instance Py_ret {S} : MRet (Py S) := λ A a w, (Returned a, w).

#[global] Instance Py_bind {S} : MBind (Py S) := λ A B f m w,
  match m w with
  | (Returned a, w') => f a w'
  | (Raised error, w') => (Raised error, w')
  end.

Definition reads {S A} (f : S → A) : Py S A := λ w, (Returned (f w), w).

Definition modify {S} (f : S → S) : Py S unit := λ w, (Returned tt, f w).

Definition raise {S A} (cls : ExceptionClass) (message : string) : Py S A :=
  λ w, (Raised (mkException cls message), w).

(** [try: body / except Exception as error: handler(error)]. *)
Definition try_except_Exception {S A}
    (body : Py S A) (handler : PyException → Py S A) : Py S A := λ w,
  match body w with
  | (Returned a, w') => (Returned a, w')
  | (Raised error, w') =>
      if isinstance_Exception error then handler error w' else (Raised error, w')
  end.

(** [for x in xs: body(x)]; an exception leaves the loop. *)
Fixpoint for_each {S A} (xs : list A) (body : A → Py S unit) : Py S unit :=
  match xs with
  | [] => mret tt
  | x :: rest => body x;; for_each rest body
  end.

Definition returned {S A} (r : Outcome A * S) : bool :=
  match r.1 with Returned _ => true | Raised _ => false end.

(** ** events.py: the registry *)

(** An [ItemHandler] object, by identity: the class defines neither
    [__eq__] nor [__hash__], so it is a dictionary key by identity, and
    neither [__bool__] nor [__len__], so every handler is truthy. *)
Definition Handler : Type := nat.

(** What is used as a key of [EventManager.reg]: a component identifier
    (a [str]), a message identifier (a [hikari.Snowflake], an [int]), or
    [None], the [custom_id] of an item that has none.  Python never
    equates values of two of these types. *)
Inductive Key : Type :=
  | key_str (custom_id : string)
  | key_int (message_id : N)
  | key_None.

#[global] Instance Key_eq_dec : EqDecision Key.
Proof. solve_decision. Defined.

#[global] Instance Key_countable : Countable Key.
Proof.
  refine (inj_countable'
    (λ k, match k with
          | key_str s => inl s
          | key_int n => inr (Some n)
          | key_None => inr None
          end)
    (λ x, match x with
          | inl s => key_str s
          | inr (Some n) => key_int n
          | inr None => key_None
          end) _).
  by intros [].
Defined.

(** What the registry does that an observer can see, oldest first:
    [handler.stop()] was called; [self.reg[custom_id] = item_handler] was
    executed. *)
Inductive Effect : Type :=
  | Stopped (handler : Handler)
  | Assigned (custom_id : Key) (item_handler : Handler).

#[global] Instance Effect_eq_dec : EqDecision Effect.
Proof. solve_decision. Defined.

Module EventManager.

(** The two dictionaries of [EventManager.__init__]. *)
Record t : Type := mk {
  reg : gmap Key Handler;
  item_handlers : gmap Handler (list Key)
}.

(** [EventManager()] *)
Definition __init__ : t := {| reg := ∅; item_handlers := ∅ |}.

(** The store the registry lives in: the module-level instance
    [_events] and the effects observed so far. *)
Record World : Type := mkWorld {
  _events : t;
  trace : list Effect
}.

Definition initial : World := {| _events := __init__; trace := [] |}.

Definition set_reg (f : gmap Key Handler → gmap Key Handler) (w : World) : World :=
  {| _events := {| reg := f (reg (_events w));
                   item_handlers := item_handlers (_events w) |};
     trace := trace w |}.

Definition set_item_handlers
    (f : gmap Handler (list Key) → gmap Handler (list Key)) (w : World) : World :=
  {| _events := {| reg := reg (_events w);
                   item_handlers := f (item_handlers (_events w)) |};
     trace := trace w |}.

Definition emit (effect : Effect) (w : World) : World :=
  {| _events := _events w; trace := trace w ++ [effect] |}.

(** [def get(self, custom_id): return self.reg.get(custom_id)]: a read,
    it changes nothing and raises nothing. *)
Definition get (self : t) (custom_id : Key) : option Handler :=
  reg self !! custom_id.

(** [def pop(self, item_handler)]: the subscript
    [self.item_handlers[item_handler]] raises [KeyError] on a handler
    that has no entry; [self.reg.pop(custom_id, None)] tolerates a
    missing key; [self.item_handlers.pop(item_handler)] has no default. *)
Definition pop (item_handler : Handler) : Py World unit :=
  recorded ← reads (λ w, item_handlers (_events w) !! item_handler);
  match recorded with
  | None => raise KeyError "item_handler"
  | Some custom_ids =>
      for_each custom_ids (λ custom_id, modify (set_reg (delete custom_id)));;
      present ← reads (λ w, item_handlers (_events w) !! item_handler);
      match present with
      | None => raise KeyError "item_handler"
      | Some _ => modify (set_item_handlers (delete item_handler))
      end
  end.

(** Modelled from the spec: [ItemHandler.stop] (miru/abc/item_handler.py
    is not among the sources).  "that owner is stopped (its timeout
    supervision cancelled, its state marked terminated)"; "stopping a
    Handler cancels its timeout supervision and removes it from the
    Registry".  The call is recorded as [Stopped handler]; the removal
    is the registry's own [pop]. *)
Definition ItemHandler_stop (handler : Handler) : Py World unit :=
  modify (emit (Stopped handler));;
  pop handler.

(** The body of the loop of [add]:
    [if handler := self.reg.get(custom_id): handler.stop()]
    [self.reg[custom_id] = item_handler] *)
Definition add_key (item_handler : Handler) (custom_id : Key) : Py World unit :=
  owner ← reads (λ w, get (_events w) custom_id);
  match owner with
  | Some handler => ItemHandler_stop handler
  | None => mret tt
  end;;
  modify (set_reg <[custom_id := item_handler]>);;
  modify (emit (Assigned custom_id item_handler)).

(** [def add(self, item_handler, *custom_ids)] *)
Definition add (item_handler : Handler) (custom_ids : list Key) : Py World unit :=
  for_each custom_ids (add_key item_handler);;
  modify (set_item_handlers <[item_handler := custom_ids]>).

(** A sequence of [add] calls, each a handler and its keys, in order;
    the first exception ends it. *)
Definition add_all (calls : list (Handler * list Key)) : Py World unit :=
  for_each calls (λ call, add call.1 call.2).

End EventManager.

(** ** events.py: the dispatcher *)

(** [hikari.Message]: only its [id] is read. *)
Record Message : Type := { message_id : N }.

(** [event.interaction].  A [hikari.ComponentInteraction] always carries
    the message its component is attached to; the [message] of a
    [hikari.ModalInteraction] is [None] when the modal answered a command.
    The two other kinds carry neither. *)
Inductive Interaction : Type :=
  | ComponentInteraction (custom_id : string) (message : Message)
  | ModalInteraction (custom_id : string) (message : option Message)
  | CommandInteraction
  | AutocompleteInteraction.

Record InteractionCreateEvent : Type := { interaction : Interaction }.

(** [isinstance(interaction, (hikari.ComponentInteraction, hikari.ModalInteraction))] *)
Definition isinstance_Component_or_Modal (i : Interaction) : bool :=
  match i with
  | ComponentInteraction _ _ | ModalInteraction _ _ => true
  | _ => false
  end.

(** [interaction.message]; a [Message] object is truthy. *)
Definition interaction_message (i : Interaction) : option Message :=
  match i with
  | ComponentInteraction _ message => Some message
  | ModalInteraction _ message => message
  | _ => None
  end.

(** [interaction.custom_id], read only after the [isinstance] test. *)
Definition interaction_custom_id (i : Interaction) : string :=
  match i with
  | ComponentInteraction custom_id _ | ModalInteraction custom_id _ => custom_id
  | _ => ""
  end.

Section Dispatcher.

(** The store of the whole process, of which the dispatcher reads the
    registry, and the method [_process_interactions] of the handler
    classes ([View] below is one), to which it delegates. *)
Context {W : Type}.
Variable _events : W → EventManager.t.
Variable _process_interactions : Handler → InteractionCreateEvent → Py W unit.

(** [async def on_inter(event)] *)
Definition on_inter (event : InteractionCreateEvent) : Py W unit :=
  if negb (isinstance_Component_or_Modal (interaction event)) then mret tt
  else
    match interaction_message (interaction event) with
    | None => mret tt
    | Some message =>
        by_custom_id ← reads (λ w, EventManager.get (_events w)
                           (key_str (interaction_custom_id (interaction event))));
        item_handler ←
          match by_custom_id with
          | Some handler => mret (Some handler)
          | None => reads (λ w, EventManager.get (_events w)
                                   (key_int (message_id message)))
          end;
        match item_handler with
        | None => mret tt
        | Some handler => _process_interactions handler event
        end
    end.

End Dispatcher.

(** ** view.py: items, contexts and the view's attributes *)

(** An [Item] attached to a handler: its identity, whether it is an
    instance of [ViewItem] (a modal's items are not), its [_persistent]
    flag and its [custom_id] ([None] on a link button). *)
Record Item : Type := {
  item_object : nat;
  isinstance_ViewItem : bool;
  _persistent : bool;
  custom_id : option string
}.

(** A [miru.ComponentInteraction], the object [from_hikari] builds for one
    dispatch.  Its [_issued_response] flag is mutable and shared by every
    context and task of that dispatch: it lives in the store, under the
    object's identity. *)
Record ComponentInteraction_ : Type := {
  interaction_object : nat;
  interaction_custom_id_ : string
}.

(** [ViewContext(view, interaction)] *)
Record ViewContext : Type := {
  context_view : Handler;
  context_interaction : ComponentInteraction_
}.

(** What [View.on_error] prints on [sys.stderr]. *)
Inductive StderrLine : Type :=
  | ignoring_exception_in_view_for_item (view : Handler) (item : Item)
  | ignoring_exception_in_view (view : Handler)
  | traceback (error : PyException).

Module View.

(** The attributes of a [View] object that the modelled methods read or
    write.  Of [timeout] only whether it is [None] is read (a value is
    kept in milliseconds); [_inputted] is the flag of the
    [asyncio.Event]. *)
Record t : Type := mk {
  self : Handler;
  timeout : option Z;
  autodefer : bool;
  children : list Item;
  _last_context : option ViewContext;
  _inputted : bool;
  _message_id : option N
}.

(** What application code, the transport layer and the scheduler can
    change while a coroutine of the view is suspended: the view itself,
    the clock [datetime.datetime.now()] reads (in microseconds, the
    resolution of [datetime]), the interaction objects whose
    [_issued_response] is set, the next fresh object identity, and
    [sys.stderr]. *)
Record World : Type := mkWorld {
  view : t;
  clock : Z;
  issued_response : gset nat;
  next_object : nat;
  stderr : list StderrLine
}.

(** Code that is awaited and is not part of the view: it may read and
    change the world in any way, then return or raise. *)
Definition Behaviour (A : Type) : Type := World → Outcome A * World.

(** What a coroutine of the view itself does and an observer can count,
    oldest first. *)
Inductive Call : Type :=
  | create_task (item : Item) (context : ViewContext)
  | context_defer (context : ViewContext)
  | call_on_error (error : PyException) (item : option Item)
      (context : option ViewContext).

(** The store of a coroutine of the view: the world, and the calls the
    coroutine has made, which awaited code cannot rewrite. *)
Record Store : Type := mkStore {
  world : World;
  calls : list Call
}.

Definition await {A} (b : Behaviour A) : Py Store A := λ s,
  let (r, w) := b (world s) in (r, {| world := w; calls := calls s |}).

Definition record (c : Call) : Py Store unit :=
  modify (λ s, {| world := world s; calls := calls s ++ [c] |}).

(** Modelled from the spec: [ItemHandler._create_task]
    (miru/abc/item_handler.py is not among the sources).  "start an
    independent concurrent task running the per-item callback sequence";
    "the Handler does not await them before returning".  The coroutine is
    scheduled, not run. *)
Definition _create_task (item : Item) (context : ViewContext) : Py Store unit :=
  record (create_task item context).

Definition set_view (f : t → t) : Py Store unit :=
  modify (λ s, {| world := {| view := f (view (world s));
                               clock := clock (world s);
                               issued_response := issued_response (world s);
                               next_object := next_object (world s);
                               stderr := stderr (world s) |};
                  calls := calls s |}).

Definition set__inputted (b : bool) (v : t) : t :=
  {| self := self v; timeout := timeout v; autodefer := autodefer v;
     children := children v; _last_context := _last_context v;
     _inputted := b; _message_id := _message_id v |}.

Definition set__last_context (c : ViewContext) (v : t) : t :=
  {| self := self v; timeout := timeout v; autodefer := autodefer v;
     children := children v; _last_context := Some c;
     _inputted := _inputted v; _message_id := _message_id v |}.

(** The methods a subclass overrides and the awaited code of the
    collaborators: [Item._refresh] and [Item.callback] (the application's
    callback), [Context.defer], [View.view_check], [View.on_error]. *)
Record Methods : Type := {
  item_refresh : Item → ComponentInteraction_ → Behaviour unit;
  item_callback : Item → ViewContext → Behaviour unit;
  defer : ViewContext → Behaviour unit;
  view_check : ViewContext → Behaviour bool;
  on_error : PyException → option Item → option ViewContext → Behaviour unit
}.

(** [async def view_check(self, context): return True] *)
Definition default_view_check (context : ViewContext) : Behaviour bool :=
  λ w, (Returned true, w).

Definition print (lines : list StderrLine) (w : World) : World :=
  {| view := view w; clock := clock w; issued_response := issued_response w;
     next_object := next_object w; stderr := stderr w ++ lines |}.

(** [async def on_error(self, error, item=None, context=None)]: an item
    object is truthy. *)
Definition default_on_error (error : PyException) (item : option Item)
    (context : option ViewContext) : Behaviour unit := λ w,
  (Returned tt,
   print [match item with
          | Some i => ignoring_exception_in_view_for_item (self (view w)) i
          | None => ignoring_exception_in_view (self (view w))
          end;
          traceback error] w).

(** [is_persistent]:
    [self.timeout is None and all(isinstance(item, ViewItem) and item._persistent for item in self.children)] *)
Definition is_persistent (v : t) : bool :=
  match timeout v with
  | None => forallb (λ item, isinstance_ViewItem item && _persistent item) (children v)
  | Some _ => false
  end.

(** [last_context]:
    [assert isinstance(self._last_context, ViewContext)]
    [return self._last_context] *)
Definition last_context {S} (v : t) : Py S (option ViewContext) :=
  match _last_context v with
  | Some context => mret (Some context)
  | None => raise AssertionError ""
  end.

(** [get_context(self, interaction)]: [ViewContext(self, interaction)] *)
Definition get_context (v : t) (i : ComponentInteraction_) : ViewContext :=
  {| context_view := self v; context_interaction := i |}.

(** Modelled from the spec: [ComponentInteraction.from_hikari]
    (miru/interaction.py is not among the sources).  "Convert the raw
    event into the library's interaction representation"; "at most one
    initial reply may be issued per interaction, tracked by an "already
    issued" flag".  A new object, on which no reply has been issued. *)
Definition from_hikari (custom_id : string) : Py Store ComponentInteraction_ := λ s,
  let w := world s in
  (Returned {| interaction_object := next_object w;
               interaction_custom_id_ := custom_id |},
   {| world := {| view := view w; clock := clock w;
                  issued_response := issued_response w ∖ {[ next_object w ]};
                  next_object := S (next_object w);
                  stderr := stderr w |};
      calls := calls s |}).

(** The longest the callback may have taken for the interaction to be
    deferred still: [total_seconds() <= 3].  [total_seconds()] is the
    integer count of microseconds divided by [10**6], rounded to the
    nearest float, so it is at most [3] exactly when the count is at
    most [3 * 10**6]: the next count, 3.000001 seconds, is further from
    [3.0] than the spacing of the floats there. *)
Definition defer_window : Z := 3000000.

Section Coroutines.

Variable M : Methods.

(** [async def _handle_callback(self, item, context)] *)
Definition _handle_callback (item : Item) (context : ViewContext) : Py Store unit :=
  try_except_Exception
    (now ← reads (λ s, clock (world s));
     set_view (set__inputted true);;
     set_view (set__inputted false);;
     await (item_refresh M item (context_interaction context));;
     await (item_callback M item context);;
     issued ← reads (λ s, bool_decide
                 (interaction_object (context_interaction context)
                    ∈ issued_response (world s)));
     enabled ← reads (λ s, autodefer (view (world s)));
     if negb issued && enabled then
       later ← reads (λ s, clock (world s));
       if (later - now <=? defer_window)%Z then
         record (context_defer context);;
         await (defer M context)
       else mret tt
     else mret tt)
    (λ error,
       record (call_on_error error (Some item) (Some context));;
       await (on_error M error (Some item) (Some context))).

(** [async def _process_interactions(self, event)] *)
Definition _process_interactions (event : InteractionCreateEvent) : Py Store unit :=
  match interaction event with
  | ComponentInteraction custom_id_ _ =>
      interaction ← from_hikari custom_id_;
      items ← reads (λ s, filter
                 (λ item, custom_id item = Some (interaction_custom_id_ interaction))
                 (children (view (world s))));
      if bool_decide (0 < length items) then
        context ← reads (λ s, get_context (view (world s)) interaction);
        set_view (set__last_context context);;
        passed ← await (view_check M context);
        if negb passed then mret tt
        else
          for_each items (λ item,
            if isinstance_ViewItem item then _create_task item context
            else raise AssertionError "")
      else mret tt
  | _ => mret tt
  end.

End Coroutines.

(** The methods as [view.py] defines them, around given collaborators. *)
Definition default_methods
    (item_refresh : Item → ComponentInteraction_ → Behaviour unit)
    (item_callback : Item → ViewContext → Behaviour unit)
    (defer : ViewContext → Behaviour unit) : Methods :=
  {| item_refresh := item_refresh; item_callback := item_callback;
     defer := defer; view_check := default_view_check;
     on_error := default_on_error |}.

End View.

(** ** view.py: [start_listener] *)

(** The names the sources look up on the instance [_events]: [events.py]
    defines [add], [pop] and [get]; [view.py] calls [subscribe] (in
    [start_listener] and [start]) and [get] (in [get_view]). *)
Inductive AttributeName : Type :=
  | name_add
  | name_pop
  | name_get
  | name_subscribe.

(** [_events.<name>(item_handler, *custom_ids)].  The attribute is looked
    up before the arguments are evaluated, and a name the class does not
    define raises [AttributeError]; [pop] and [get] take one argument
    after [self]; [get(item_handler)] looks up an object that is no key
    and returns [None]. *)
Definition EventManager_call (name : AttributeName) (item_handler : Handler)
    (custom_ids : list Key) : Py EventManager.World unit :=
  match name with
  | name_add => EventManager.add item_handler custom_ids
  | name_pop =>
      match custom_ids with
      | [] => EventManager.pop item_handler
      | _ => raise TypeError "pop() takes 2 positional arguments"
      end
  | name_get =>
      match custom_ids with
      | [] => mret tt
      | _ => raise TypeError "get() takes 2 positional arguments"
      end
  | name_subscribe =>
      raise AttributeError "'EventManager' object has no attribute 'subscribe'"
  end.

(** [item.custom_id] as a key of the registry. *)
Definition item_key (item : Item) : Key :=
  match custom_id item with
  | Some s => key_str s
  | None => key_None
  end.

(** [def start_listener(self)]:
    [if not self.is_persistent: raise ValueError(...)]
    [_events.subscribe(self, *[item.custom_id for item in self._children])] *)
Definition start_listener (v : View.t) : Py EventManager.World unit :=
  if negb (View.is_persistent v) then
    raise ValueError "This can only be used on persistent views."
  else
    EventManager_call name_subscribe (View.self v) (item_key <$> View.children v).

(** ** view.py: subclassing *)

(** A [DecoratedItem]: a decorated callback, by its [name] and the item
    it builds. *)
Record DecoratedItem : Type := {
  decorated_name : string;
  decorated_item : Item
}.

(** A value of a class [__dict__], as [isinstance(value, DecoratedItem)]
    tells them apart. *)
Inductive ClassValue : Type :=
  | decorated (value : DecoratedItem)
  | undecorated.

(** The inner loop of [__init_subclass__], over the values of one class:
    [if isinstance(value, DecoratedItem): children.append(value)]. *)
Definition collect_class (children : list DecoratedItem)
    (base_cls : list ClassValue) : list DecoratedItem :=
  foldl (λ children value,
           match value with
           | decorated d => children ++ [d]
           | undecorated => children
           end) children base_cls.

(** [def __init_subclass__(cls)], for [cls.mro()] given as the values of
    each class's [__dict__], the class itself first; the result is what is
    assigned to [cls._view_children]. *)
Definition __init_subclass__ {S} (mro : list (list ClassValue))
    : Py S (list DecoratedItem) :=
  let children := foldl collect_class [] (reverse mro) in
  if bool_decide (25 < length children) then
    raise ValueError "View cannot have more than 25 components attached."
  else mret children.

(** ** view.py: [is_bound], [start] and [get_view] *)

(** [is_bound]: [True if self._message_id is not None else False] *)
Definition is_bound (v : View.t) : bool :=
  match View._message_id v with
  | Some _ => true
  | None => false
  end.

Definition set__message_id (message_id : N) (v : View.t) : View.t :=
  {| View.self := View.self v; View.timeout := View.timeout v;
     View.autodefer := View.autodefer v; View.children := View.children v;
     View._last_context := View._last_context v;
     View._inputted := View._inputted v; View._message_id := Some message_id |}.

(** The store of [start]: the view, its [_message] attribute, and the
    registry. *)
Record Attached : Type := {
  attached_view : View.t;
  _message : option Message;
  registry : EventManager.World
}.

Definition on_registry {A} (m : Py EventManager.World A) : Py Attached A := λ s,
  let (r, w) := m (registry s) in
  (r, {| attached_view := attached_view s; _message := _message s; registry := w |}).

(** What [start] is given, once awaited if it has to be:
    [isinstance(message, hikari.Message)] or not. *)
Inductive StartValue : Type :=
  | a_message (message : Message)
  | not_a_message.

(** The argument of [start]: a value, or an awaitable, which runs, may
    change the store, and returns a value or raises. *)
Inductive StartArgument : Type :=
  | value (v : StartValue)
  | awaitable (result : Py Attached StartValue).

Section Start.

(** Class [Button] is not among the sources: whether an item is a
    [Button], and its [url]. *)
Variable isinstance_Button : Item → bool.
Variable url : Item → option string.

(** [all((isinstance(item, Button) and item.url is not None) for item in self.children)] *)
Definition only_links (v : View.t) : bool :=
  forallb (λ item, isinstance_Button item && bool_decide (url item ≠ None))
          (View.children v).

(** [async def start(self, message)] *)
Definition start (message : StartArgument) : Py Attached unit :=
  links ← reads (λ s, only_links (attached_view s));
  if (links : bool) then mret tt
  else
    message ← match message with
              | awaitable result => result
              | value v => mret v
              end;
    match message with
    | not_a_message =>
        raise TypeError "Parameter message must be an instance of 'hikari.Message'"
    | a_message m =>
        modify (λ s, {| attached_view := attached_view s; _message := Some m;
                        registry := registry s |});;
        modify (λ s, {| attached_view := set__message_id (message_id m) (attached_view s);
                        _message := _message s; registry := registry s |});;
        self_ ← reads (λ s, View.self (attached_view s));
        self__message_id ← reads (λ s, View._message_id (attached_view s));
        on_registry (EventManager_call name_subscribe self_
                       [match self__message_id with
                        | Some n => key_int n
                        | None => key_None
                        end])
    end.

End Start.

(** The argument of [get_view], a [SnowflakeishOr[PartialMessage]]: an
    identifier or a message object. *)
Inductive MessageArgument : Type :=
  | message_by_id (n : N)
  | message_by_object (m : Message).

(** [hikari.Snowflake(message)] *)
Definition Snowflake (message : MessageArgument) : N :=
  match message with
  | message_by_id n => n
  | message_by_object m => message_id m
  end.

(** The store of [get_view]: the class attribute [View._app] (the
    application object, [None] until [miru.load()] has run) and the
    registry. *)
Record Library : Type := {
  _app : option nat;
  library_registry : EventManager.World
}.

Section GetView.

(** [isinstance(inst, View)]: a handler of the registry may be of another
    class. *)
Variable isinstance_View : Handler → bool.

(** [def get_view(message)] *)
Definition get_view (message : MessageArgument) : Py Library (option Handler) :=
  app ← reads (λ s, _app s);
  match app with
  | None => raise RuntimeError "miru is not yet loaded! Please call miru.load() first."
  | Some _ =>
      inst ← reads (λ s, EventManager.get (EventManager._events (library_registry s))
                           (key_int (Snowflake message)));
      match inst with
      | Some handler => if isinstance_View handler then mret (Some handler) else mret None
      | None => mret None
      end
  end.

End GetView.

(** * Concrete registries, views and collaborators *)

Module Sample.

Definition a : Key := key_str "a".
Definition b : Key := key_str "b".

(** Two [add] calls sharing the key ["a"], on the registry as the
    process starts with it. *)
Definition calls : list (Handler * list Key) := [(1, [a; b])].
Definition call : Handler * list Key := (2, [a]).



(** Handler 1 registered under ["a"]. *)
Definition registered : EventManager.World :=
  (EventManager.add 1 [a] EventManager.initial).2.

(** Handler 1 registered under ["a"], then again under ["b"], then
    removed. *)
Definition added_twice_then_popped : Outcome unit * EventManager.World :=
  (EventManager.add 1 [a];; EventManager.add 1 [b];; EventManager.pop 1)
    EventManager.initial.

(** A process-wide store: the registry, and the handlers events were
    handed to, in order. *)
Definition Process : Type := EventManager.t * list Handler.

Definition deliver (handler : Handler) (event : InteractionCreateEvent)
    : Py Process unit :=
  modify (λ p, (p.1, p.2 ++ [handler])).

Definition process : Process := (EventManager._events registered, []).

(** A modal submitted in answer to a command: it has no message. *)
Definition modal_without_message : InteractionCreateEvent :=
  {| interaction := ModalInteraction "a" None |}.

Definition button_press : InteractionCreateEvent :=
  {| interaction := ComponentInteraction "a" {| message_id := 7 |} |}.

Definition slash_command : InteractionCreateEvent :=
  {| interaction := CommandInteraction |}.

Definition unknown_button_press : InteractionCreateEvent :=
  {| interaction := ComponentInteraction "z" {| message_id := 7 |} |}.

Definition button : Item :=
  {| item_object := 0; isinstance_ViewItem := true; _persistent := true;
     custom_id := Some "a" |}.

Definition link_button : Item :=
  {| item_object := 1; isinstance_ViewItem := true; _persistent := false;
     custom_id := None |}.

(** A persistent view with one button, to which no event was
    dispatched yet. *)
Definition view : View.t :=
  {| View.self := 1; View.timeout := None; View.autodefer := true;
     View.children := [button]; View._last_context := None;
     View._inputted := false; View._message_id := None |}.

Definition view_with_link : View.t :=
  {| View.self := 2; View.timeout := None; View.autodefer := true;
     View.children := [button; link_button]; View._last_context := None;
     View._inputted := false; View._message_id := None |}.

Definition world : View.World :=
  {| View.view := view; View.clock := 0; View.issued_response := ∅;
     View.next_object := 1; View.stderr := [] |}.

Definition store : View.Store := {| View.world := world; View.calls := [] |}.

Definition context : ViewContext :=
  {| context_view := 1;
     context_interaction :=
       {| interaction_object := 0; interaction_custom_id_ := "a" |} |}.

(** Collaborators: one that returns at once, one that returns after
    some time, one that raises. *)
Definition returns : View.Behaviour unit := λ w, (Returned tt, w).

Definition sleeps (microseconds : Z) : View.Behaviour unit := λ w,
  (Returned tt,
   {| View.view := View.view w; View.clock := View.clock w + microseconds;
      View.issued_response := View.issued_response w;
      View.next_object := View.next_object w; View.stderr := View.stderr w |}).

Definition raises (error : PyException) : View.Behaviour unit :=
  λ w, (Raised error, w).

Definition quick : View.Methods :=
  View.default_methods (λ _ _, returns) (λ _ _, sleeps 1000000) (λ _, returns).


Definition failing : View.Methods :=
  View.default_methods (λ _ _, returns)
    (λ _ _, raises (mkException ValueError "boom")) (λ _, returns).

Definition cancelled : View.Methods :=
  View.default_methods (λ _ _, returns)
    (λ _ _, raises (mkException CancelledError "")) (λ _, returns).

End Sample.

(** ** More concrete inputs *)

Module Scenario.

Definition message : Message := {| message_id := 7 |}.

Definition panel_key : Key := key_int 7.

(** Two buttons declared on a class, and a third on a subclass. *)
Definition first : DecoratedItem :=
  {| decorated_name := "first"; decorated_item := Sample.button |}.

Definition second : DecoratedItem :=
  {| decorated_name := "second"; decorated_item := Sample.link_button |}.

Definition base_class : list ClassValue := [undecorated; decorated first].

Definition sub_class : list ClassValue := [decorated second; undecorated].

(** Which items are link buttons: those that have no [custom_id]. *)
Definition isinstance_Button (item : Item) : bool := true.

Definition url (item : Item) : option string :=
  match custom_id item with
  | Some _ => None
  | None => Some "https://example.org"
  end.

Definition links_only : View.t :=
  {| View.self := 3; View.timeout := None; View.autodefer := true;
     View.children := [Sample.link_button]; View._last_context := None;
     View._inputted := false; View._message_id := None |}.

Definition attached (v : View.t) : Attached :=
  {| attached_view := v; _message := None; registry := EventManager.initial |}.

(** A registry in which handler 1 is a [View] and every other handler is
    not. *)
Definition isinstance_View (handler : Handler) : bool := bool_decide (handler = 1).

Definition loaded (w : EventManager.World) : Library :=
  {| _app := Some 0; library_registry := w |}.

(** Handler 1 registered under the identifier of [message]; handler 2
    registered under ["b"] beside handler 1 under ["a"]. *)
Definition panel : EventManager.World :=
  (EventManager.add 1 [panel_key] EventManager.initial).2.

Definition two_handlers : EventManager.World :=
  (EventManager.add 2 [Sample.b] Sample.registered).2.

(** A handler class that ignores what it is handed. *)
Definition ignore (handler : Handler) (event : InteractionCreateEvent)
    : Py EventManager.World unit := mret tt.

(** An [on_error] override that raises the exception it is given. *)
Definition reraising : View.Methods :=
  {| View.item_refresh := λ _ _, Sample.returns;
     View.item_callback := λ _ _, Sample.raises (mkException ValueError "boom");
     View.defer := λ _, Sample.returns;
     View.view_check := View.default_view_check;
     View.on_error := λ error _ _ w, (Raised error, w) |}.

(** A check that rejects every event. *)
Definition rejecting : View.Methods :=
  {| View.item_refresh := λ _ _, Sample.returns;
     View.item_callback := λ _ _, Sample.returns;
     View.defer := λ _, Sample.returns;
     View.view_check := λ _ w, (Returned false, w);
     View.on_error := View.default_on_error |}.

End Scenario.

(** * The vocabulary of the properties *)

(** ** Registry *)

Section RegistryVocabulary.

Import EventManager.

Implicit Types (w : World) (h g : Handler) (k : Key) (ks : list Key).

(** [m] once [pop] has deleted the keys [ks], one after the other;
    the world after a completed [pop h] that found [ks] recorded; the
    world after [self.reg[k] = h]. *)
Definition without (ks : list Key) (m : gmap Key Handler) : gmap Key Handler :=
  foldl (λ m k, delete k m) m ks.

Definition popped h ks w : World :=
  set_item_handlers (delete h) (set_reg (without ks) w).

Definition assigned h k w : World :=
  emit (Assigned k h) (set_reg <[k := h]> w).

(** A registry is consistent when every key recorded for a handler is
    a key that handler owns. *)
Definition consistent w : Prop :=
  ∀ g ks k, item_handlers (_events w) !! g = Some ks → k ∈ ks →
            reg (_events w) !! k = Some g.

(** While the loop of [add h] runs, the keys it has gone through are
    owned by [h] and are not among the keys recorded for [h] by an
    earlier call. *)
Definition taken h (done : list Key) w : Prop :=
  (∀ k, k ∈ done → reg (_events w) !! k = Some h) ∧
  (∀ ks k, item_handlers (_events w) !! h = Some ks → k ∈ done → k ∉ ks).

(** A registry is exact when the keys a handler owns are the keys
    recorded for it: what a first registration of each handler under
    distinct keys builds. *)
Definition exact w : Prop :=
  ∀ g k, reg (_events w) !! k = Some g ↔
         ∃ ks, item_handlers (_events w) !! g = Some ks ∧ k ∈ ks.

(** While the loop of [add h] runs for a handler [h] that has no record:
    the registry is exact for the other handlers, and [h] owns the keys
    the loop has gone through. *)
Definition registering h (done : list Key) w : Prop :=
  item_handlers (_events w) !! h = None ∧
  (∀ g k, g ≠ h →
     (reg (_events w) !! k = Some g ↔
      ∃ ks, item_handlers (_events w) !! g = Some ks ∧ k ∈ ks)) ∧
  (∀ k, reg (_events w) !! k = Some h ↔ k ∈ done).

(** The handlers stopped in a trace, in order. *)
Definition stops (t : list Effect) : list Handler :=
  omap (λ e, match e with Stopped g => Some g | Assigned _ _ => None end) t.

End RegistryVocabulary.

(** ** View *)

(** An item declares itself persistence-capable: it is a [ViewItem] whose
    [_persistent] flag is set. *)
Definition persistence_capable (item : Item) : Prop :=
  isinstance_ViewItem item = true ∧ _persistent item = true.

Section ViewVocabulary.

Import View.

Implicit Types (w : World) (s : Store) (item : Item) (context : ViewContext).

(** The world once [self._inputted.set()] and [self._inputted.clear()]
    have run. *)
Definition signalled w : World :=
  {| view := set__inputted false (set__inputted true (view w));
     clock := clock w; issued_response := issued_response w;
     next_object := next_object w; stderr := stderr w |}.

(** The test of [_handle_callback] once the callback has returned in
    world [w], for a coroutine that read the clock at [now]. *)
Definition should_defer context (now : Z) w : bool :=
  negb (bool_decide (interaction_object (context_interaction context)
                       ∈ issued_response w))
  && autodefer (view w) && (clock w - now <=? defer_window)%Z.

(** The [except] clause, for an exception raised in world [w] by a
    coroutine that has made the calls [made]. *)
Definition caught (M : Methods) item context (error : PyException) (made : list Call) w
    : Outcome unit * Store :=
  if isinstance_Exception error then
    let (r, w') := on_error M error (Some item) (Some context) w in
    (r, {| world := w';
           calls := made ++ [call_on_error error (Some item) (Some context)] |})
  else (Raised error, {| world := w; calls := made |}).

(** [[item for item in self.children if item.custom_id == custom_id]] *)
Definition matching (custom_id_ : string) (v : t) : list Item :=
  filter (λ item, custom_id item = Some custom_id_) (children v).

(** The interaction object and the context a dispatch in world [w]
    builds, and the world once the context is stored. *)
Definition dispatch_interaction (custom_id_ : string) w : ComponentInteraction_ :=
  {| interaction_object := next_object w; interaction_custom_id_ := custom_id_ |}.

Definition dispatch_context (custom_id_ : string) w : ViewContext :=
  get_context (view w) (dispatch_interaction custom_id_ w).

Definition converted w : World :=
  {| view := view w; clock := clock w;
     issued_response := issued_response w ∖ {[ next_object w ]};
     next_object := S (next_object w); stderr := stderr w |}.

Definition dispatched (custom_id_ : string) w : World :=
  {| view := set__last_context (dispatch_context custom_id_ w) (view w);
     clock := clock w;
     issued_response := issued_response w ∖ {[ next_object w ]};
     next_object := S (next_object w); stderr := stderr w |}.

(** What the task made of the calls of the store it ended in, given the
    store it started in. *)
Definition made (s s' : Store) : list Call := drop (length (calls s)) (calls s').

(** The calls of the [except] clause. *)
Definition on_error_calls item context (error : PyException) : list Call :=
  if isinstance_Exception error
  then [call_on_error error (Some item) (Some context)] else [].

(** The exception [error] is raised, in world [w], by one of the three
    awaited steps of the task: the refresh, the callback, or the
    implicit [defer]. *)
Inductive raises_in_task (M : Methods) item context s
    (error : PyException) w : Prop :=
  | raises_in_refresh :
      item_refresh M item (context_interaction context) (signalled (world s))
        = (Raised error, w) →
      raises_in_task M item context s error w
  | raises_in_callback w1 :
      item_refresh M item (context_interaction context) (signalled (world s))
        = (Returned tt, w1) →
      item_callback M item context w1 = (Raised error, w) →
      raises_in_task M item context s error w
  | raises_in_defer w1 w2 :
      item_refresh M item (context_interaction context) (signalled (world s))
        = (Returned tt, w1) →
      item_callback M item context w1 = (Returned tt, w2) →
      should_defer context (clock (world s)) w2 = true →
      defer M context w2 = (Raised error, w) →
      raises_in_task M item context s error w.

End ViewVocabulary.

(** ** Subclassing *)

(** The [DecoratedItem]s among the values of a class. *)
Definition decorated_of (values : list ClassValue) : list DecoratedItem :=
  omap (λ v, match v with decorated d => Some d | undecorated => None end) values.

(** The registry once the distinct keys [ks], none of them owned, have
    been assigned to [h] by [add]. *)
Definition registered_under (h : Handler) (ks : list Key)
    (w : EventManager.World) : EventManager.World :=
  {| EventManager._events :=
       {| EventManager.reg :=
            foldl (λ m k, <[k := h]> m) (EventManager.reg (EventManager._events w)) ks;
          EventManager.item_handlers :=
            <[h := ks]> (EventManager.item_handlers (EventManager._events w)) |};
     EventManager.trace := EventManager.trace w ++ ((λ k, Assigned k h) <$> ks) |}.

(** The value [start] goes on with: its argument, awaited if it is an
    awaitable. *)
Definition awaited (message : StartArgument) : Py Attached StartValue :=
  match message with
  | awaitable result => result
  | value v => mret v
  end.

(** The store once [start] has bound the view to the message [m]. *)
Definition bound_to (m : Message) (s : Attached) : Attached :=
  {| attached_view := set__message_id (message_id m) (attached_view s);
     _message := Some m; registry := registry s |}.

(** * Properties *)

(** ** Computations *)

Lemma bind_returned {S A B} (m : Py S A) (f : A → Py S B) w b w' :
  (m ≫= f) w = (Returned b, w') ↔
  ∃ a w1, m w = (Returned a, w1) ∧ f a w1 = (Returned b, w').
Proof.
  unfold mbind, Py_bind. split.
  - destruct (m w) as [[a|e] w1]; [eauto | discriminate].
  - intros (a & w1 & -> & H). exact H.
Qed.

Lemma bind_eq_returned {S A B} (m : Py S A) (f : A → Py S B) w a w1 :
  m w = (Returned a, w1) → (m ≫= f) w = f a w1.
Proof. unfold mbind, Py_bind. by intros ->. Qed.

Lemma bind_eq_raised {S A B} (m : Py S A) (f : A → Py S B) w e w1 :
  m w = (Raised e, w1) → (m ≫= f) w = (Raised e, w1).
Proof. unfold mbind, Py_bind. by intros ->. Qed.


(** ** The registry: what [pop], [stop] and one step of [add] compute *)

Section Registry.

Import EventManager.

Implicit Types (w : World) (h g : Handler) (k : Key) (ks : list Key).

Lemma lookup_without ks (m : gmap Key Handler) k :
  without ks m !! k = if decide (k ∈ ks) then None else m !! k.
Proof.
  unfold without. revert m. induction ks as [|k0 ks IH]; intros m.
  - rewrite decide_False by apply not_elem_of_nil. done.
  - change (foldl (λ m k, delete k m) m (k0 :: ks))
      with (foldl (λ m k, delete k m) (delete k0 m) ks).
    rewrite IH. destruct (decide (k = k0)) as [->|Hne].
    + rewrite lookup_delete_eq, (decide_True _ _ (list_elem_of_here _ _)).
      by destruct (decide _).
    + rewrite lookup_delete_ne by done.
      destruct (decide (k ∈ ks)) as [Hin|Hout].
      * by rewrite decide_True by by right.
      * rewrite decide_False; [done |]. rewrite elem_of_cons. by intros [?|?].
Qed.

Lemma for_each_delete ks w :
  for_each ks (λ k, modify (set_reg (delete k))) w
  = (Returned tt, set_reg (without ks) w).
Proof.
  revert w. induction ks as [|k ks IH]; intros w; simpl.
  - by destruct w as [[] ?].
  - erewrite bind_eq_returned by reflexivity. by rewrite IH.
Qed.

Lemma pop_eq h w :
  pop h w =
  match item_handlers (_events w) !! h with
  | None => (Raised (mkException KeyError "item_handler"), w)
  | Some ks => (Returned tt, popped h ks w)
  end.
Proof.
  unfold pop. erewrite bind_eq_returned by reflexivity.
  destruct (item_handlers (_events w) !! h) as [ks|] eqn:Hrec; [| done].
  erewrite bind_eq_returned by apply for_each_delete.
  erewrite bind_eq_returned by reflexivity. simpl. by rewrite Hrec.
Qed.

Lemma ItemHandler_stop_eq g w :
  ItemHandler_stop g w =
  match item_handlers (_events w) !! g with
  | None => (Raised (mkException KeyError "item_handler"), emit (Stopped g) w)
  | Some ks => (Returned tt, popped g ks (emit (Stopped g) w))
  end.
Proof.
  unfold ItemHandler_stop. erewrite bind_eq_returned by reflexivity.
  by rewrite pop_eq.
Qed.

Lemma add_key_eq h k w :
  add_key h k w =
  match reg (_events w) !! k with
  | None => (Returned tt, assigned h k w)
  | Some g =>
      match item_handlers (_events w) !! g with
      | None => (Raised (mkException KeyError "item_handler"), emit (Stopped g) w)
      | Some ks => (Returned tt, assigned h k (popped g ks (emit (Stopped g) w)))
      end
  end.
Proof.
  unfold add_key. erewrite bind_eq_returned by reflexivity. unfold get.
  destruct (reg (_events w) !! k) as [g|].
  - destruct (item_handlers (_events w) !! g) as [ks|] eqn:Hrec.
    + erewrite bind_eq_returned; [| rewrite ItemHandler_stop_eq, Hrec; reflexivity]. done.
    + erewrite bind_eq_raised; [| rewrite ItemHandler_stop_eq, Hrec; reflexivity]. done.
  - done.
Qed.

Lemma consistent_initial : consistent initial.
Proof. intros g ks k H. simpl in H. by rewrite lookup_empty in H. Qed.

Lemma elem_of_stops g t : g ∈ stops t ↔ Stopped g ∈ t.
Proof.
  unfold stops. rewrite list_elem_of_omap. split.
  - by intros ([g'|] & Hin & [= <-]).
  - intros Hin. by exists (Stopped g).
Qed.

Lemma stops_app t1 t2 : stops (t1 ++ t2) = stops t1 ++ stops t2.
Proof. apply omap_app. Qed.

End Registry.

(** ** The registry: the loop of [add] *)

Section AddLoop.

Import EventManager.

Implicit Types (w : World) (h g : Handler) (k : Key) (ks : list Key).

Lemma add_key_returned h k w w1 :
  add_key h k w = (Returned tt, w1) →
  (reg (_events w) !! k = None ∧ w1 = assigned h k w) ∨
  (∃ g ks, reg (_events w) !! k = Some g ∧
           item_handlers (_events w) !! g = Some ks ∧
           w1 = assigned h k (popped g ks (emit (Stopped g) w))).
Proof.
  rewrite add_key_eq. destruct (reg (_events w) !! k) as [g|] eqn:Hk.
  - destruct (item_handlers (_events w) !! g) as [ks|] eqn:Hg; [| done].
    intros [= <-]. right. by exists g, ks.
  - intros [= <-]. by left.
Qed.

Lemma add_key_consistent h k w w1 :
  consistent w → add_key h k w = (Returned tt, w1) → consistent w1.
Proof.
  intros Hc [[Hk ->]|(g & ks & Hk & Hg & ->)]%add_key_returned g' ks' k'; simpl.
  - intros Hrec Hin. pose proof (Hc _ _ _ Hrec Hin) as Hown.
    rewrite lookup_insert_ne; [done | congruence].
  - intros Hrec Hin. apply lookup_delete_Some in Hrec as [Hne Hrec].
    pose proof (Hc _ _ _ Hrec Hin) as Hown.
    rewrite lookup_insert_ne by congruence.
    rewrite lookup_without, decide_False; [done |].
    intros Hin'. pose proof (Hc _ _ _ Hg Hin'). congruence.
Qed.

Lemma add_key_taken h k done w w1 :
  consistent w → taken h done w → add_key h k w = (Returned tt, w1) →
  taken h (k :: done) w1.
Proof.
  intros Hc [Hown Hnew] [[Hk ->]|(g & ks & Hk & Hg & ->)]%add_key_returned;
    split; simpl.
  - intros k' [->|Hin]%elem_of_cons; [by rewrite lookup_insert_eq |].
    destruct (decide (k = k')) as [->|Hne]; [by rewrite lookup_insert_eq |].
    rewrite lookup_insert_ne by done. by apply Hown.
  - intros ks' k' Hrec [->|Hin]%elem_of_cons Hin'; [| by eapply Hnew].
    pose proof (Hc _ _ _ Hrec Hin'). congruence.
  - intros k' [->|Hin]%elem_of_cons; [by rewrite lookup_insert_eq |].
    destruct (decide (k = k')) as [->|Hne]; [by rewrite lookup_insert_eq |].
    rewrite lookup_insert_ne by done.
    rewrite lookup_without, decide_False; [by apply Hown |].
    intros Hin'. destruct (decide (g = h)) as [->|Hgh].
    + by eapply Hnew.
    + pose proof (Hc _ _ _ Hg Hin'). rewrite (Hown _ Hin) in *. congruence.
  - intros ks' k' [Hne Hrec]%lookup_delete_Some [->|Hin]%elem_of_cons Hin';
      [| by eapply Hnew].
    pose proof (Hc _ _ _ Hrec Hin'). congruence.
Qed.

Lemma add_loop_taken h ks : ∀ done w w',
  consistent w → taken h done w →
  for_each ks (add_key h) w = (Returned tt, w') →
  consistent w' ∧ taken h (ks ++ done) w'.
Proof.
  induction ks as [|k ks IH]; intros done w w' Hc Ht; simpl.
  - by intros [= <-].
  - intros ([] & w1 & Hk & Hrest)%bind_returned.
    destruct (IH (k :: done) w1 w') as [Hc' [Hown Hnew]];
      [by eapply add_key_consistent | by eapply add_key_taken | done |].
    assert (∀ k', k' ∈ (k :: ks) ++ done → k' ∈ ks ++ k :: done) as Hmid.
    { intros k'. rewrite !elem_of_app, !elem_of_cons. tauto. }
    split; [done |]. split.
    + intros k' Hin. by apply Hown, Hmid.
    + intros ks' k' Hrec Hin. eapply Hnew; [done |]. by apply Hmid.
Qed.

Lemma add_key_trace h k w w1 :
  add_key h k w = (Returned tt, w1) →
  ∃ t, trace w1 = trace w ++ t ∧ Assigned k h ∈ t ∧ NoDup (stops t) ∧
       (∀ g, g ∈ stops t →
             is_Some (item_handlers (_events w) !! g) ∧
             item_handlers (_events w1) !! g = None) ∧
       (∀ g, item_handlers (_events w) !! g = None →
             item_handlers (_events w1) !! g = None).
Proof.
  intros [[Hk ->]|(g & ks & Hk & Hg & ->)]%add_key_returned; simpl.
  - exists [Assigned k h]. split_and!; [done | apply list_elem_of_here | apply NoDup_nil_2 | | done].
    intros g Hin. by apply elem_of_nil in Hin.
  - exists [Stopped g; Assigned k h]. rewrite <-app_assoc. split_and!; [done | | | |].
    + apply list_elem_of_further, list_elem_of_here.
    + apply NoDup_singleton.
    + intros g' ->%list_elem_of_singleton. split; [by eexists |].
      apply lookup_delete_eq.
    + intros g' Hnone. rewrite lookup_delete_None. by right.
Qed.

Lemma add_loop_trace h ks : ∀ w w',
  for_each ks (add_key h) w = (Returned tt, w') →
  ∃ t, trace w' = trace w ++ t ∧ (∀ k, k ∈ ks → Assigned k h ∈ t) ∧
       NoDup (stops t) ∧
       (∀ g, g ∈ stops t →
             is_Some (item_handlers (_events w) !! g) ∧
             item_handlers (_events w') !! g = None) ∧
       (∀ g, item_handlers (_events w) !! g = None →
             item_handlers (_events w') !! g = None).
Proof.
  induction ks as [|k ks IH]; intros w w'; simpl.
  - intros [= <-]. exists []. rewrite app_nil_r.
    split_and!; [done | | apply NoDup_nil_2 | | done].
    + intros k Hin. by apply elem_of_nil in Hin.
    + intros g Hin. by apply elem_of_nil in Hin.
  - intros ([] & w1 & Hk & Hrest)%bind_returned.
    destruct (add_key_trace _ _ _ _ Hk) as (t0 & Ht0 & Hk0 & Hnd0 & Hst0 & Hmono0).
    destruct (IH _ _ Hrest) as (t & Ht & Hks & Hnd & Hst & Hmono).
    exists (t0 ++ t). rewrite Ht, Ht0, <-app_assoc. split_and!; [done | | | |].
    + intros k' [->|Hin]%elem_of_cons; apply elem_of_app; [by left | right; by apply Hks].
    + rewrite stops_app. apply NoDup_app. split_and!; [done | | done].
      intros g Hin0 Hin. destruct (Hst0 _ Hin0) as [_ Hnone].
      destruct (Hst _ Hin) as [[ks' Hsome] _]. congruence.
    + intros g. rewrite stops_app. intros [Hin|Hin]%elem_of_app.
      * destruct (Hst0 _ Hin) as [Hsome Hnone]. split; [done | by apply Hmono].
      * destruct (Hst _ Hin) as [Hsome Hnone]. split; [| done].
        destruct (item_handlers (_events w) !! g) eqn:Hg; [by eexists |].
        apply Hmono0 in Hg. rewrite Hg in Hsome. by destruct Hsome.
    + intros g Hnone. by apply Hmono, Hmono0.
Qed.

(** The owner of a key of the call is stopped before the key is
    assigned. *)
Lemma add_loop_stops_owner h ks : ∀ w w' k g,
  consistent w →
  for_each ks (add_key h) w = (Returned tt, w') →
  k ∈ ks → reg (_events w) !! k = Some g →
  ∃ t1 t2 t3, trace w' = trace w ++ t1 ++ Stopped g :: t2 ++ Assigned k h :: t3.
Proof.
  induction ks as [|k0 ks IH]; intros w w' k g Hc; simpl.
  - intros _ Hin. by apply elem_of_nil in Hin.
  - intros ([] & w1 & Hk0 & Hrest)%bind_returned Hin Hk.
    pose proof (add_key_consistent _ _ _ _ Hc Hk0) as Hc1.
    destruct (add_loop_trace _ _ _ _ Hrest) as (t & Ht & Hks & _).
    destruct (decide (k = k0)) as [->|Hne].
    { apply add_key_returned in Hk0 as [[Hnone _]|(g' & ks' & Hk' & _ & ->)];
        [congruence |].
      assert (g' = g) as -> by congruence.
      exists [], [], t. rewrite Ht. simpl. by rewrite <-!app_assoc. }
    apply elem_of_cons in Hin as [?|Hin]; [done |].
    apply add_key_returned in Hk0 as [[Hnone ->]|(g0 & ks0 & Hk0 & Hg0 & ->)].
    + destruct (IH _ _ k g Hc1 Hrest Hin) as (t1 & t2 & t3 & Heq).
      { simpl. by rewrite lookup_insert_ne. }
      exists (Assigned k0 h :: t1), t2, t3. rewrite Heq. simpl.
      by rewrite <-!app_assoc.
    + destruct (decide (k ∈ ks0)) as [Hin0|Hout0].
      * pose proof (Hc _ _ _ Hg0 Hin0). assert (g0 = g) as -> by congruence.
        apply Hks, list_elem_of_split in Hin as (ta & tb & ->).
        exists [], (Assigned k0 h :: ta), tb. rewrite Ht. simpl.
        by rewrite <-!app_assoc.
      * destruct (IH _ _ k g Hc1 Hrest Hin) as (t1 & t2 & t3 & Heq).
        { simpl. rewrite lookup_insert_ne by done.
          by rewrite lookup_without, decide_False. }
        exists (Stopped g0 :: Assigned k0 h :: t1), t2, t3. rewrite Heq. simpl.
        by rewrite <-!app_assoc.
Qed.

End AddLoop.

(** ** The registry: [add], [pop] and [get] *)

Section RegistryContract.

Import EventManager.

Implicit Types (w : World) (h g : Handler) (k : Key) (ks : list Key).

Lemma add_returned_inv h ks w w' :
  add h ks w = (Returned tt, w') →
  ∃ w1, for_each ks (add_key h) w = (Returned tt, w1) ∧
        w' = set_item_handlers <[h := ks]> w1.
Proof.
  unfold add. intros ([] & w1 & Hloop & Hrec)%bind_returned.
  exists w1. split; [done |]. by injection Hrec as <-.
Qed.

Lemma add_records h ks w w' :
  add h ks w = (Returned tt, w') → item_handlers (_events w') !! h = Some ks.
Proof.
  intros (w1 & _ & ->)%add_returned_inv. simpl. apply lookup_insert_eq.
Qed.

Lemma add_consistent h ks w w' :
  consistent w → add h ks w = (Returned tt, w') → consistent w'.
Proof.
  intros Hc (w1 & Hloop & ->)%add_returned_inv.
  destruct (add_loop_taken h ks [] w w1) as [Hc1 [Hown _]]; [done | | done |].
  { split; [intros k' Hk' | intros ks' k' _ Hk']; by apply elem_of_nil in Hk'. }
  intros g ks' k. simpl. destruct (decide (g = h)) as [->|Hne].
  - rewrite lookup_insert_eq. intros [= <-] Hin. apply Hown.
    rewrite elem_of_app. by left.
  - rewrite lookup_insert_ne by done. apply Hc1.
Qed.


(** One completed [add]: every key of the call now belongs to the
    caller, and the handler that owned a key of the call was stopped
    once, before that key was assigned. *)
Lemma add_takes_over h ks w w' k :
  consistent w → add h ks w = (Returned tt, w') → k ∈ ks →
  get (_events w') k = Some h ∧
  ∀ owner, get (_events w) k = Some owner →
    ∃ t1 t2 t3,
      trace w' = trace w ++ t1 ++ Stopped owner :: t2 ++ Assigned k h :: t3 ∧
      Stopped owner ∉ t1 ++ t2 ++ t3.
Proof.
  intros Hc (w1 & Hloop & ->)%add_returned_inv Hin. split.
  - destruct (add_loop_taken h ks [] w w1) as [_ [Hown _]]; [done | | done |].
    { split; [intros k' Hk' | intros ks' k' _ Hk']; by apply elem_of_nil in Hk'. }
    unfold get. simpl. apply Hown. rewrite elem_of_app. by left.
  - intros owner Howner.
    destruct (add_loop_stops_owner h ks w w1 k owner Hc Hloop Hin Howner)
      as (t1 & t2 & t3 & Heq).
    destruct (add_loop_trace h ks w w1 Hloop) as (t & Ht & _ & Hnd & _).
    exists t1, t2, t3. split; [done |].
    rewrite Ht in Heq. apply app_inv_head in Heq. subst t.
    rewrite stops_app in Hnd. simpl in Hnd. rewrite stops_app in Hnd.
    simpl in Hnd. apply NoDup_app in Hnd as (_ & Hbefore & Hafter).
    apply NoDup_cons in Hafter as [Hafter _].
    rewrite !elem_of_app. rewrite <-!elem_of_stops.
    intros [Hin1|Hin23].
    + apply (Hbefore _ Hin1). apply list_elem_of_here.
    + apply Hafter. by rewrite elem_of_app.
Qed.

Lemma pop_consistent h w w' :
  consistent w → pop h w = (Returned tt, w') → consistent w'.
Proof.
  intros Hc. rewrite pop_eq.
  destruct (item_handlers (_events w) !! h) as [ks|] eqn:Hrec; [| done].
  intros [= <-] g ks' k. simpl. intros [Hne Hg]%lookup_delete_Some Hin.
  rewrite lookup_without, decide_False; [by eapply Hc |].
  intros Hin'. pose proof (Hc _ _ _ Hrec Hin'). pose proof (Hc _ _ _ Hg Hin).
  congruence.
Qed.

(** *** When [add] returns *)

(** [add] raises when it stops a handler that has no record: here the
    caller itself, found as the owner of a key it was given twice, before
    its keys are recorded. *)
Lemma add_repeated_key_raises :
  add 1 [Sample.a; Sample.a] initial
  = (Raised (mkException KeyError "item_handler"),
     {| _events := {| reg := {[ Sample.a := 1 ]}; item_handlers := ∅ |};
        trace := [Assigned Sample.a 1; Stopped 1] |}).
Proof. vm_compute. reflexivity. Qed.

Lemma exact_consistent w : exact w → consistent w.
Proof. intros He g ks k Hrec Hin. apply He. eauto. Qed.

Lemma exact_initial : exact initial.
Proof.
  intros g k. simpl. rewrite lookup_empty. split; [done |].
  intros (ks & Hrec & _). by rewrite lookup_empty in Hrec.
Qed.

Lemma add_key_registering h k done w :
  registering h done w → k ∉ done →
  ∃ w1, add_key h k w = (Returned tt, w1) ∧ registering h (k :: done) w1.
Proof.
  intros (Hnone & Hothers & Hown) Hnew. rewrite add_key_eq.
  destruct (reg (_events w) !! k) as [g|] eqn:Hk.
  - assert (g ≠ h) as Hgh by (intros ->; by apply Hnew, Hown).
    destruct (proj1 (Hothers g k Hgh) Hk) as (ks & Hg & Hin).
    rewrite Hg. eexists. split; [done |]. split_and!; simpl.
    + by rewrite lookup_delete_ne.
    + intros g' k' Hg'h. destruct (decide (k' = k)) as [->|Hne].
      * rewrite lookup_insert_eq. split; [congruence |].
        intros (ks' & [Hne' Hrec]%lookup_delete_Some & Hin').
        pose proof (proj2 (Hothers g' k Hg'h) (ex_intro _ ks' (conj Hrec Hin'))).
        congruence.
      * rewrite lookup_insert_ne, lookup_without by done.
        destruct (decide (g' = g)) as [->|Hg'g].
        -- rewrite lookup_delete_eq. split; [| by intros (? & ? & _)].
           destruct (decide (k' ∈ ks)); [done |]. intros Hk'.
           destruct (proj1 (Hothers g k' Hgh) Hk') as (ks' & Hg2 & Hin2).
           congruence.
        -- rewrite lookup_delete_ne by done. rewrite <-(Hothers g' k' Hg'h).
           destruct (decide (k' ∈ ks)) as [Hin'|]; [| done].
           pose proof (proj2 (Hothers g k' Hgh) (ex_intro _ ks (conj Hg Hin'))).
           split; [done | congruence].
    + intros k'. rewrite elem_of_cons. destruct (decide (k' = k)) as [->|Hne].
      * rewrite lookup_insert_eq. by split; [left |].
      * rewrite lookup_insert_ne, lookup_without by done. rewrite <-Hown.
        destruct (decide (k' ∈ ks)) as [Hin'|]; [| by split; [right | intros [?|?]]].
        pose proof (proj2 (Hothers g k' Hgh) (ex_intro _ ks (conj Hg Hin'))).
        split; [done | intros [?|?]; congruence].
  - eexists. split; [done |]. split_and!; simpl.
    + done.
    + intros g' k' Hg'h. rewrite <-(Hothers g' k' Hg'h).
      destruct (decide (k' = k)) as [->|Hne].
      * rewrite lookup_insert_eq. split; congruence.
      * by rewrite lookup_insert_ne.
    + intros k'. rewrite elem_of_cons. destruct (decide (k' = k)) as [->|Hne].
      * rewrite lookup_insert_eq. by split; [left |].
      * rewrite lookup_insert_ne by done. rewrite Hown.
        by split; [right | intros [?|?]].
Qed.

Lemma add_loop_registering h ks : ∀ done w,
  registering h done w → NoDup ks → (∀ k, k ∈ ks → k ∉ done) →
  ∃ w', for_each ks (add_key h) w = (Returned tt, w') ∧
        registering h (ks ++ done) w'.
Proof.
  induction ks as [|k ks IH]; intros done w Hreg Hnd Hnew; simpl.
  - by eexists.
  - apply NoDup_cons in Hnd as [Hk Hnd].
    destruct (add_key_registering h k done w Hreg) as (w1 & Hstep & Hreg1);
      [apply Hnew, list_elem_of_here |].
    destruct (IH (k :: done) w1 Hreg1 Hnd) as (w' & Hloop & (Hnone & Hothers & Hown)).
    { intros k' Hin [->|Hdone]%elem_of_cons; [done |].
      by apply (Hnew k'); [apply list_elem_of_further |]. }
    exists w'. split; [by erewrite bind_eq_returned |].
    split_and!; [done | done |]. intros k'. rewrite Hown.
    rewrite !elem_of_app, !elem_of_cons, elem_of_app. tauto.
Qed.

(** A handler that has no record, registered under distinct keys in an
    exact registry: [add] returns, and the registry is exact again. *)
Lemma add_fresh_returns h ks w :
  exact w → item_handlers (_events w) !! h = None → NoDup ks →
  ∃ w', add h ks w = (Returned tt, w') ∧ exact w'.
Proof.
  intros He Hnone Hnd.
  destruct (add_loop_registering h ks [] w) as (w1 & Hloop & (_ & Hothers & Hown)).
  { split_and!; [done | intros g k _; apply He |].
    intros k. split; [| by intros ?%elem_of_nil].
    intros (ks' & Hrec & _)%He. congruence. }
  { done. }
  { intros k _ ?%elem_of_nil. done. }
  exists (set_item_handlers <[h := ks]> w1). split.
  - unfold add. by erewrite bind_eq_returned.
  - intros g k. simpl. destruct (decide (g = h)) as [->|Hne].
    + rewrite lookup_insert_eq, Hown, app_nil_r. split; [by eexists |].
      by intros (? & [= <-] & ?).
    + rewrite lookup_insert_ne by done. by apply Hothers.
Qed.

Lemma add_keeps_unrecorded h ks w w' g :
  add h ks w = (Returned tt, w') → g ≠ h →
  item_handlers (_events w) !! g = None → item_handlers (_events w') !! g = None.
Proof.
  intros (w1 & Hloop & ->)%add_returned_inv Hne Hnone. simpl.
  rewrite lookup_insert_ne by done.
  destruct (add_loop_trace h ks w w1 Hloop) as (t & _ & _ & _ & _ & Hmono).
  by apply Hmono.
Qed.

(** Handlers that have no record, all different, each registered under
    distinct keys, one call after the other in an exact registry: every
    call returns. *)
Lemma add_all_fresh_returns calls : ∀ w,
  exact w → NoDup calls.*1 →
  (∀ c, c ∈ calls → item_handlers (_events w) !! c.1 = None ∧ NoDup c.2) →
  ∃ w', add_all calls w = (Returned tt, w') ∧ exact w'.
Proof.
  unfold add_all. induction calls as [|[h ks] calls IH]; intros w He Hnd Hfresh; simpl.
  - by eexists.
  - apply NoDup_cons in Hnd as [Hh Hnd].
    destruct (Hfresh (h, ks)) as [Hnone Hks]; [apply list_elem_of_here |].
    destruct (add_fresh_returns h ks w He Hnone Hks) as (w1 & Hadd & He1).
    destruct (IH w1 He1 Hnd) as (w' & Hrest & He').
    { intros c Hc. destruct (Hfresh c) as [Hc1 Hc2]; [by apply list_elem_of_further |].
      split; [| done]. eapply add_keeps_unrecorded; [done | | done].
      intros Heq. apply Hh. rewrite <-Heq. apply list_elem_of_fmap.
      by exists c. }
    exists w'. split; [by erewrite bind_eq_returned | done].
Qed.

Lemma pop_exact h w w' : exact w → pop h w = (Returned tt, w') → exact w'.
Proof.
  intros He. rewrite pop_eq.
  destruct (item_handlers (_events w) !! h) as [ks|] eqn:Hrec; [| done].
  intros [= <-] g k. simpl. rewrite lookup_without.
  destruct (decide (g = h)) as [->|Hne].
  - rewrite lookup_delete_eq. split; [| by intros (? & ? & _)].
    destruct (decide (k ∈ ks)); [done |]. intros (ks' & ? & ?)%He. congruence.
  - rewrite lookup_delete_ne by done. rewrite <-(He g k).
    destruct (decide (k ∈ ks)) as [Hin|]; [| done].
    pose proof (proj2 (He h k) (ex_intro _ ks (conj Hrec Hin))).
    split; [done | congruence].
Qed.

(** *** When [add] raises *)






End RegistryContract.

(** ** Claims about the registry *)

Section RegistryClaims.

Import EventManager.


(** C2, as the code has it.  [pop] on a handler that has no entry in
    [item_handlers] (it was never added, or it was popped already)
    raises [KeyError] and leaves the registry as it was; so a second
    [pop] of a handler raises. *)
Theorem pop_unregistered_raises_KeyError :
  (∀ h w, item_handlers (_events w) !! h = None →
     pop h w = (Raised (mkException KeyError "item_handler"), w)) ∧
  (∀ h w w', pop h w = (Returned tt, w') →
     pop h w' = (Raised (mkException KeyError "item_handler"), w')).
Proof.
  split.
  - intros h w Hnone. by rewrite pop_eq, Hnone.
  - intros h w w'. rewrite (pop_eq h w).
    destruct (item_handlers (_events w) !! h) as [ks|]; [| done].
    intros [= <-]. rewrite pop_eq. simpl. by rewrite lookup_delete_eq.
Qed.

(** C3, as the code has it.  A completed [add] records for the handler
    exactly the keys of that call, in place of what an earlier call
    recorded; [pop] of a handler returns and deletes from [reg] exactly
    the keys recorded for it, so a lookup of any of them returns
    nothing. *)
Theorem pop_purges_recorded_keys :
  (∀ h ks w w1, add h ks w = (Returned tt, w1) →
     item_handlers (_events w1) !! h = Some ks) ∧
  (∀ h ks w, item_handlers (_events w) !! h = Some ks →
     ∃ w2, pop h w = (Returned tt, w2) ∧
           item_handlers (_events w2) !! h = None ∧
           ∀ k, get (_events w2) k
                = if decide (k ∈ ks) then None else get (_events w) k).
Proof.
  split.
  - intros h ks w w1. apply add_records.
  - intros h ks w Hrec. exists (popped h ks w). rewrite pop_eq, Hrec.
    split_and!; [done | apply lookup_delete_eq |].
    intros k. unfold get. simpl. apply lookup_without.
Qed.

End RegistryClaims.

(** ** The dispatcher *)

Section DispatcherClaims.

Context {W : Type}.
Variable _events : W → EventManager.t.
Variable _process_interactions : Handler → InteractionCreateEvent → Py W unit.

(** C8, as the code has it.  An event that is neither a component
    action nor a modal submission, or that carries no message, is
    dropped: [on_inter] returns and the store is unchanged.  For the
    others the handler registered under the event's [custom_id] is
    preferred, the one registered under the identifier of the event's
    message is the fallback, the event is handed to that handler's
    [_process_interactions], and it is dropped when neither is
    registered. *)
Theorem on_inter_resolution (event : InteractionCreateEvent) (w : W) :
  (isinstance_Component_or_Modal (interaction event) = false ∨
   interaction_message (interaction event) = None →
     on_inter _events _process_interactions event w = (Returned tt, w)) ∧
  (∀ message,
     isinstance_Component_or_Modal (interaction event) = true →
     interaction_message (interaction event) = Some message →
     on_inter _events _process_interactions event w =
       match EventManager.get (_events w)
               (key_str (interaction_custom_id (interaction event))) with
       | Some handler => _process_interactions handler event w
       | None =>
           match EventManager.get (_events w) (key_int (message_id message)) with
           | Some handler => _process_interactions handler event w
           | None => (Returned tt, w)
           end
       end).
Proof.
  unfold on_inter. split.
  - intros [->| Hnone]; [done |].
    destruct (isinstance_Component_or_Modal _); [| done]. simpl. by rewrite Hnone.
  - intros message -> ->. simpl. unfold mbind, Py_bind, reads, mret, Py_ret.
    destruct (EventManager.get (_events w) (key_str _)) as [handler|]; [done |].
    by destruct (EventManager.get (_events w) (key_int _)) as [handler|].
Qed.

End DispatcherClaims.

(** ** The view: persistence, the last context, [start_listener] *)

(** C6. [is_persistent] holds exactly when the timeout is unset and every
    item is persistence-capable; one item that is not makes it false,
    whatever the timeout. *)
Theorem is_persistent_iff (v : View.t) :
  (View.is_persistent v = true ↔
   View.timeout v = None ∧
   ∀ item, item ∈ View.children v → persistence_capable item) ∧
  (∀ item, item ∈ View.children v → ¬ persistence_capable item →
           View.is_persistent v = false).
Proof.
  assert (View.is_persistent v = true ↔
          View.timeout v = None ∧
          ∀ item, item ∈ View.children v → persistence_capable item) as Hiff.
  { unfold View.is_persistent, persistence_capable.
    destruct (View.timeout v) as [seconds|].
    - split; [done | by intros [? _]].
    - rewrite forallb_forall. split.
      + intros Hall. split; [done |]. intros item Hin%list_elem_of_In.
        by apply andb_true_iff, Hall.
      + intros [_ Hall] item Hin%list_elem_of_In.
        by apply andb_true_iff, Hall. }
  split; [done |]. intros item Hin Hnot.
  destruct (View.is_persistent v) eqn:Hp; [| done].
  destruct Hiff as [[_ Hall] _]; [done |]. by destruct Hnot; apply Hall.
Qed.

(** C10. While [_last_context] is [None], reading [last_context] raises
    [AssertionError]: it does not return [None]. *)
Theorem last_context_before_dispatch {S} (v : View.t) (s : S) :
  View._last_context v = None →
  View.last_context v s = (Raised (mkException AssertionError ""), s) ∧
  View.last_context v s ≠ (Returned None, s).
Proof. unfold View.last_context. intros ->. by split. Qed.

Lemma last_context_after_dispatch {S} (v : View.t) (s : S) context :
  View._last_context v = Some context →
  View.last_context v s = (Returned (Some context), s).
Proof. unfold View.last_context. by intros ->. Qed.

Lemma start_listener_not_persistent (v : View.t) (w : EventManager.World) :
  View.is_persistent v = false →
  start_listener v w
  = (Raised (mkException ValueError "This can only be used on persistent views."), w).
Proof. unfold start_listener. by intros ->. Qed.

Lemma start_listener_persistent (v : View.t) (w : EventManager.World) :
  View.is_persistent v = true →
  start_listener v w
  = (Raised (mkException AttributeError
               "'EventManager' object has no attribute 'subscribe'"), w).
Proof. unfold start_listener. by intros ->. Qed.

(** What the call would do under the name the registry defines: [add]
    with the same arguments gives every item's key to the view. *)
Lemma add_registers_item_keys (v : View.t) (w w' : EventManager.World) :
  consistent w →
  EventManager_call name_add (View.self v) (item_key <$> View.children v) w
  = (Returned tt, w') →
  ∀ item, item ∈ View.children v →
          EventManager.get (EventManager._events w') (item_key item)
          = Some (View.self v).
Proof.
  simpl. intros Hc Hadd item Hin.
  eapply add_takes_over; [done | done |]. by apply list_elem_of_fmap_2.
Qed.

(** ** The view: what the two coroutines compute *)

Section ViewEquations.

Import View.

Variable M : Methods.

Implicit Types (w : World) (s : Store) (item : Item) (context : ViewContext).

Lemma _handle_callback_eq item context s :
  _handle_callback M item context s =
  match item_refresh M item (context_interaction context) (signalled (world s)) with
  | (Raised error, w) => caught M item context error (calls s) w
  | (Returned _, w1) =>
      match item_callback M item context w1 with
      | (Raised error, w) => caught M item context error (calls s) w
      | (Returned _, w2) =>
          if should_defer context (clock (world s)) w2 then
            match defer M context w2 with
            | (Raised error, w) =>
                caught M item context error (calls s ++ [context_defer context]) w
            | (Returned _, w3) =>
                (Returned tt,
                 {| world := w3; calls := calls s ++ [context_defer context] |})
            end
          else (Returned tt, {| world := w2; calls := calls s |})
      end
  end.
Proof.
  unfold _handle_callback, try_except_Exception, caught, should_defer, signalled.
  unfold mbind, Py_bind, mret, Py_ret, reads, set_view, modify, await, record.
  simpl.
  destruct (item_refresh M item _ _) as [[[]|e1] w1]; simpl.
  2: { destruct (isinstance_Exception e1); [| done].
       by destruct (on_error M e1 (Some item) (Some context) w1). }
  destruct (item_callback M item context w1) as [[[]|e2] w2]; simpl.
  2: { destruct (isinstance_Exception e2); [| done].
       by destruct (on_error M e2 (Some item) (Some context) w2). }
  destruct (bool_decide _); simpl; [done |].
  destruct (autodefer (view w2)); simpl; [| done].
  destruct (clock w2 - clock (world s) <=? defer_window)%Z; simpl; [| done].
  destruct (defer M context w2) as [[[]|e3] w3]; simpl; [done |].
  destruct (isinstance_Exception e3); [| done].
  by destruct (on_error M e3 (Some item) (Some context) w3).
Qed.

End ViewEquations.

Section ProcessEquations.

Import View.

Variable M : Methods.

Implicit Types (w : World) (s : Store) (item : Item) (context : ViewContext).

Lemma create_tasks items context s :
  Forall (λ item, isinstance_ViewItem item = true) items →
  for_each items (λ item,
    if isinstance_ViewItem item then _create_task item context
    else raise AssertionError "") s
  = (Returned tt,
     {| world := world s;
        calls := calls s ++ ((λ item, create_task item context) <$> items) |}).
Proof.
  intros Hall. revert s. induction Hall as [|item items Hitem _ IH]; intros s; simpl.
  - rewrite app_nil_r. by destruct s.
  - rewrite Hitem. erewrite bind_eq_returned by reflexivity.
    rewrite IH. simpl. by rewrite <-app_assoc.
Qed.

Lemma _process_interactions_eq event s :
  _process_interactions M event s =
  match interaction event with
  | ComponentInteraction custom_id_ _ =>
      let items := matching custom_id_ (view (world s)) in
      if bool_decide (0 < length items) then
        let context := dispatch_context custom_id_ (world s) in
        match view_check M context (dispatched custom_id_ (world s)) with
        | (Returned passed, w) =>
            if negb passed then (Returned tt, {| world := w; calls := calls s |})
            else
              for_each items (λ item,
                if isinstance_ViewItem item then _create_task item context
                else raise AssertionError "")
                {| world := w; calls := calls s |}
        | (Raised error, w) => (Raised error, {| world := w; calls := calls s |})
        end
      else (Returned tt, {| world := converted (world s); calls := calls s |})
  | _ => (Returned tt, s)
  end.
Proof.
  unfold _process_interactions.
  destruct (interaction event) as [custom_id_ message| | |]; try done.
  unfold mbind, Py_bind, mret, Py_ret, reads, set_view, modify, await, from_hikari.
  simpl. fold (matching custom_id_ (view (world s))).
  destruct (bool_decide (0 < length (matching custom_id_ (view (world s))))); [| done].
  simpl. fold (dispatch_interaction custom_id_ (world s)).
  fold (dispatch_context custom_id_ (world s)).
  fold (dispatched custom_id_ (world s)).
  destruct (view_check M _ _) as [[passed|error] w]; [| done].
  by destruct passed.
Qed.

End ProcessEquations.

(** ** Claims about the view's coroutines *)

Section ViewClaims.

Import View.

Implicit Types (w : World) (s : Store) (item : Item) (context : ViewContext).

(** C9. A component event whose [custom_id] is that of none of the
    view's items: [_process_interactions] returns, creates no task and
    leaves the view as it was, and with it its last context, its input
    signal and its items. *)
Theorem process_interactions_no_match (M : Methods)
    (event : InteractionCreateEvent) custom_id_ message s :
  interaction event = ComponentInteraction custom_id_ message →
  (∀ item, item ∈ children (view (world s)) → custom_id item ≠ Some custom_id_) →
  ∃ s', _process_interactions M event s = (Returned tt, s') ∧
        calls s' = calls s ∧
        view (world s') = view (world s) ∧
        _last_context (view (world s')) = _last_context (view (world s)) ∧
        _inputted (view (world s')) = _inputted (view (world s)) ∧
        children (view (world s')) = children (view (world s)).
Proof.
  intros Hevent Hnone. rewrite _process_interactions_eq, Hevent.
  assert (matching custom_id_ (view (world s)) = []) as ->.
  { unfold matching.
    destruct (filter _ (children (view (world s)))) as [|item rest] eqn:Hfilter;
      [done |].
    assert (item ∈ filter (λ item, custom_id item = Some custom_id_)
                     (children (view (world s)))) as Hin
      by (rewrite Hfilter; apply list_elem_of_here).
    apply list_elem_of_filter in Hin as [Heq Hin]. by destruct (Hnone _ Hin). }
  simpl. by eexists.
Qed.


Lemma made_app s before w :
  made s {| world := w; calls := calls s ++ before |} = before.
Proof. unfold made. simpl. by rewrite drop_app_length. Qed.

Lemma made_nil s w : made s {| world := w; calls := calls s |} = [].
Proof. unfold made. simpl. apply drop_all. Qed.

Lemma caught_made (M : Methods) item context error before s w :
  made s (caught M item context error (calls s ++ before) w).2
  = before ++ on_error_calls item context error.
Proof.
  unfold caught, on_error_calls. destruct (isinstance_Exception error).
  - destruct (on_error M error _ _ w). simpl. by rewrite <-app_assoc, made_app.
  - simpl. by rewrite made_app, app_nil_r.
Qed.

(** The calls of a task, step by step. *)
Lemma _handle_callback_made (M : Methods) item context s :
  made s (_handle_callback M item context s).2 =
  match item_refresh M item (context_interaction context) (signalled (world s)) with
  | (Raised error, _) => on_error_calls item context error
  | (Returned _, w1) =>
      match item_callback M item context w1 with
      | (Raised error, _) => on_error_calls item context error
      | (Returned _, w2) =>
          if should_defer context (clock (world s)) w2 then
            context_defer context ::
              match defer M context w2 with
              | (Raised error, _) => on_error_calls item context error
              | (Returned _, _) => []
              end
          else []
      end
  end.
Proof.
  rewrite _handle_callback_eq.
  pose proof (caught_made M item context) as Hcaught.
  assert (∀ error w, made s (caught M item context error (calls s) w).2
                     = on_error_calls item context error) as Hcaught0.
  { intros error w. specialize (Hcaught error [] s w). by rewrite app_nil_r in Hcaught. }
  destruct (item_refresh M item _ _) as [[[]|e1] w1]; [| apply Hcaught0].
  destruct (item_callback M item context w1) as [[[]|e2] w2]; [| apply Hcaught0].
  destruct (should_defer context (clock (world s)) w2); [| apply made_nil].
  destruct (defer M context w2) as [[[]|e3] w3]; [apply made_app | apply Hcaught].
Qed.



End ViewClaims.

Section ErrorClaims.

Import View.

Implicit Types (w : World) (s : Store) (item : Item) (context : ViewContext).

(** Whatever the hook, the task hands an [Exception] raised by one of
    its steps to [on_error] once, with its item and its context, and
    ends as the hook ends. *)
Lemma _handle_callback_raises (M : Methods) item context s error w :
  raises_in_task M item context s error w →
  ∃ before, (before = [] ∨ before = [context_defer context]) ∧
    _handle_callback M item context s
    = caught M item context error (calls s ++ before) w.
Proof.
  rewrite _handle_callback_eq. intros [Hr|w1 Hr Hc|w1 w2 Hr Hc Hd Hdefer].
  - exists []. rewrite app_nil_r, Hr. by split; [left |].
  - exists []. rewrite app_nil_r, Hr, Hc. by split; [left |].
  - exists [context_defer context]. rewrite Hr, Hc, Hd, Hdefer. by split; [right |].
Qed.

(** The dispatch of a component event that matches items, all of them
    [ViewItem]s, when the check passes: one task per matching item. *)
Lemma _process_interactions_creates_tasks (M : Methods) event custom_id_ message s :
  view_check M = default_view_check →
  interaction event = ComponentInteraction custom_id_ message →
  matching custom_id_ (view (world s)) ≠ [] →
  Forall (λ item, isinstance_ViewItem item = true)
         (matching custom_id_ (view (world s))) →
  _process_interactions M event s
  = (Returned tt,
     {| world := dispatched custom_id_ (world s);
        calls := calls s ++
          ((λ item, create_task item (dispatch_context custom_id_ (world s)))
             <$> matching custom_id_ (view (world s))) |}).
Proof.
  intros Hcheck Hevent Hsome Hall. rewrite _process_interactions_eq, Hevent.
  cbv zeta. rewrite bool_decide_eq_true_2.
  - rewrite Hcheck. unfold default_view_check. simpl. by rewrite create_tasks.
  - destruct (matching custom_id_ (view (world s))); [done | simpl; lia].
Qed.

(** The dispatch of a component event that matches items, all of them
    [ViewItem]s, when the check, whichever it is, passes: one task per
    matching item. *)
Lemma _process_interactions_passes (M : Methods) event custom_id_ message s w' :
  interaction event = ComponentInteraction custom_id_ message →
  matching custom_id_ (view (world s)) ≠ [] →
  Forall (λ item, isinstance_ViewItem item = true)
         (matching custom_id_ (view (world s))) →
  view_check M (dispatch_context custom_id_ (world s))
    (dispatched custom_id_ (world s)) = (Returned true, w') →
  _process_interactions M event s
  = (Returned tt,
     {| world := w';
        calls := calls s ++
          ((λ item, create_task item (dispatch_context custom_id_ (world s)))
             <$> matching custom_id_ (view (world s))) |}).
Proof.
  intros Hevent Hsome Hall Hcheck. rewrite _process_interactions_eq, Hevent.
  cbv zeta. rewrite bool_decide_eq_true_2, Hcheck.
  - simpl. by rewrite create_tasks.
  - destruct (matching custom_id_ (view (world s))); [done | simpl; lia].
Qed.

(** C5, as the code has it.  Whatever the hooks of the handler are, an
    exception raised by the refresh, the callback or the implicit
    [defer] of a task meets [except Exception].  An instance of
    [Exception] is passed to [on_error] exactly once, with the task's
    item and context, and the task ends as the hook ends: it returns
    when the hook returns, as the [on_error] of [view.py] does, leaving
    the view as the failing step left it.  Any other exception leaves the
    task and [on_error] is not called.  However the task ended, a later
    component event that matches items of the view and passes the check
    gets its tasks created. *)
Theorem callback_exception_contained (M : Methods) item context s error w :
  raises_in_task M item context s error w →
  ∃ before, (before = [] ∨ before = [context_defer context]) ∧
    (isinstance_Exception error = true →
       _handle_callback M item context s
       = ((on_error M error (Some item) (Some context) w).1,
          {| world := (on_error M error (Some item) (Some context) w).2;
             calls := calls s ++ before
                        ++ [call_on_error error (Some item) (Some context)] |}) ∧
       (on_error M = default_on_error →
          ∃ s', _handle_callback M item context s = (Returned tt, s') ∧
                view (world s') = view w)) ∧
    (isinstance_Exception error = false →
       _handle_callback M item context s
       = (Raised error, {| world := w; calls := calls s ++ before |})) ∧
    (∀ event custom_id_ message w'',
       let s' := (_handle_callback M item context s).2 in
       interaction event = ComponentInteraction custom_id_ message →
       matching custom_id_ (view (world s')) ≠ [] →
       Forall (λ item, isinstance_ViewItem item = true)
              (matching custom_id_ (view (world s'))) →
       view_check M (dispatch_context custom_id_ (world s'))
         (dispatched custom_id_ (world s')) = (Returned true, w'') →
       _process_interactions M event s'
       = (Returned tt,
          {| world := w'';
             calls := calls s' ++
               ((λ item, create_task item (dispatch_context custom_id_ (world s')))
                  <$> matching custom_id_ (view (world s'))) |})).
Proof.
  intros Hraises.
  destruct (_handle_callback_raises M _ _ _ _ _ Hraises) as (before & Hbefore & Hrun).
  exists before. split; [done |]. split_and!.
  - intros Herror. rewrite Hrun. unfold caught. rewrite Herror.
    destruct (on_error M error (Some item) (Some context) w) as [r w'] eqn:Hhook.
    simpl. rewrite <-app_assoc. split; [done |].
    intros Hdefault. rewrite Hdefault in Hhook. injection Hhook as <- <-.
    by eexists.
  - intros Herror. rewrite Hrun. unfold caught. by rewrite Herror.
  - intros event custom_id_ message w'' s'. by apply _process_interactions_passes.
Qed.

End ErrorClaims.

(** * Concrete runs *)

Section RegistryRuns.

Import EventManager.



Lemma pop_never_registered_raises :
  pop 1 initial = (Raised (mkException KeyError "item_handler"), initial).
Proof. reflexivity. Qed.

Lemma pop_unregistered_raises_KeyError_witness :
  item_handlers (_events initial) !! 1 = None ∧
  pop 1 initial = (Raised (mkException KeyError "item_handler"), initial) ∧
  pop 1 Sample.registered = (Returned tt, (pop 1 Sample.registered).2) ∧
  pop 1 (pop 1 Sample.registered).2
  = (Raised (mkException KeyError "item_handler"), (pop 1 Sample.registered).2).
Proof.
  assert (item_handlers (_events initial) !! 1 = None) as Hnone by reflexivity.
  assert (pop 1 Sample.registered = (Returned tt, (pop 1 Sample.registered).2))
    as Hpop by (vm_compute; reflexivity).
  split_and!; [exact Hnone | | exact Hpop |].
  - exact (proj1 pop_unregistered_raises_KeyError 1 initial Hnone).
  - exact (proj2 pop_unregistered_raises_KeyError 1 Sample.registered _ Hpop).
Defined.

Lemma pop_leaves_keys_of_earlier_add :
  Sample.added_twice_then_popped.1 = Returned tt ∧
  get (_events Sample.added_twice_then_popped.2) Sample.a = Some 1.
Proof. split; vm_compute; reflexivity. Qed.

Lemma pop_purges_recorded_keys_witness :
  add 1 [Sample.a] initial = (Returned tt, Sample.registered) ∧
  item_handlers (_events Sample.registered) !! 1 = Some [Sample.a] ∧
  ∃ w2, pop 1 Sample.registered = (Returned tt, w2) ∧
        get (_events w2) Sample.a = None.
Proof.
  assert (add 1 [Sample.a] initial = (Returned tt, Sample.registered)) as Hadd
    by (vm_compute; reflexivity).
  pose proof (proj1 pop_purges_recorded_keys 1 [Sample.a] initial _ Hadd) as Hrec.
  destruct (proj2 pop_purges_recorded_keys 1 [Sample.a] Sample.registered Hrec)
    as (w2 & Hpop & _ & Hget).
  split_and!; [exact Hadd | exact Hrec |]. exists w2. split; [exact Hpop |].
  rewrite Hget. apply decide_True, list_elem_of_here.
Defined.

End RegistryRuns.

Section DispatcherRuns.

(** A modal submission that carries no message is dropped although a
    handler is registered under its [custom_id]; a button press with
    the same [custom_id] reaches that handler. *)
Lemma on_inter_drops_modal_without_message :
  EventManager.get Sample.process.1 (key_str "a") = Some 1 ∧
  on_inter fst Sample.deliver Sample.modal_without_message Sample.process
  = (Returned tt, Sample.process).
Proof. split; vm_compute; reflexivity. Qed.

Lemma on_inter_delivers_button_press :
  on_inter fst Sample.deliver Sample.button_press Sample.process
  = (Returned tt, (Sample.process.1, [1])).
Proof. vm_compute. reflexivity. Qed.

Lemma on_inter_resolution_witness :
  on_inter fst Sample.deliver Sample.slash_command Sample.process
  = (Returned tt, Sample.process) ∧
  on_inter fst Sample.deliver Sample.button_press Sample.process
  = Sample.deliver 1 Sample.button_press Sample.process.
Proof.
  split.
  - apply (proj1 (on_inter_resolution fst Sample.deliver
                    Sample.slash_command Sample.process)).
    left. reflexivity.
  - rewrite (proj2 (on_inter_resolution fst Sample.deliver
                      Sample.button_press Sample.process)
               {| message_id := 7 |} eq_refl eq_refl).
    vm_compute. reflexivity.
Defined.

End DispatcherRuns.

Section ViewRuns.

Import View.

Lemma is_persistent_iff_witness :
  Sample.link_button ∈ children Sample.view_with_link ∧
  ¬ persistence_capable Sample.link_button ∧
  is_persistent Sample.view_with_link = false ∧
  is_persistent Sample.view = true.
Proof.
  assert (Sample.link_button ∈ children Sample.view_with_link) as Hin
    by apply list_elem_of_further, list_elem_of_here.
  assert (¬ persistence_capable Sample.link_button) as Hnot by (by intros [_ ?]).
  split_and!; [exact Hin | exact Hnot | |].
  - exact (proj2 (is_persistent_iff Sample.view_with_link) _ Hin Hnot).
  - apply (proj1 (is_persistent_iff Sample.view)). split; [reflexivity |].
    intros item ->%list_elem_of_singleton. by split.
Defined.

Lemma last_context_before_dispatch_witness :
  _last_context Sample.view = None ∧
  last_context Sample.view Sample.store
  = (Raised (mkException AssertionError ""), Sample.store).
Proof.
  split; [reflexivity |].
  exact (proj1 (last_context_before_dispatch Sample.view Sample.store eq_refl)).
Defined.

(** C7, where the code departs from it.  [start_listener] on a
    persistent view raises [AttributeError] and registers nothing. *)
Theorem start_listener_persistent_view_raises :
  is_persistent Sample.view = true ∧
  start_listener Sample.view EventManager.initial
  = (Raised (mkException AttributeError
               "'EventManager' object has no attribute 'subscribe'"),
     EventManager.initial) ∧
  EventManager.get (EventManager._events EventManager.initial) (key_str "a") = None.
Proof. split_and!; reflexivity. Qed.

Lemma process_interactions_no_match_witness :
  ∃ s', _process_interactions Sample.quick Sample.unknown_button_press Sample.store
        = (Returned tt, s') ∧
        calls s' = [] ∧ view (world s') = Sample.view.
Proof.
  destruct (process_interactions_no_match Sample.quick Sample.unknown_button_press
              "z" {| message_id := 7 |} Sample.store eq_refl)
    as (s' & Hrun & Hcalls & Hview & _).
  { intros item ->%list_elem_of_singleton. discriminate. }
  exists s'. split_and!; [exact Hrun | exact Hcalls | exact Hview].
Defined.

Lemma process_interactions_match :
  (_process_interactions Sample.quick Sample.button_press Sample.store).1
  = Returned tt ∧
  calls (_process_interactions Sample.quick Sample.button_press Sample.store).2
  = [create_task Sample.button
       {| context_view := 1;
          context_interaction :=
            {| interaction_object := 1; interaction_custom_id_ := "a" |} |}].
Proof. split; vm_compute; reflexivity. Qed.

(** The two scenarios of the autodefer rule: after one second the task
    defers, after five it does nothing. *)
Lemma autodefer_after_one_second :
  made Sample.store (_handle_callback Sample.quick Sample.button Sample.context
                       Sample.store).2
  = [context_defer Sample.context].
Proof. vm_compute. reflexivity. Qed.


(** A callback that is cancelled: [CancelledError] is not an
    [Exception], it leaves the task and [on_error] is not called. *)
Lemma cancelled_callback_propagates :
  _handle_callback Sample.cancelled Sample.button Sample.context Sample.store
  = (Raised (mkException CancelledError ""),
     {| world := signalled Sample.world; calls := [] |}).
Proof. vm_compute. reflexivity. Qed.

(** An [on_error] that raises what it is given: the exception is handed
    to the hook once and leaves the task with it. *)
Lemma reraising_hook_propagates :
  _handle_callback Scenario.reraising Sample.button Sample.context Sample.store
  = (Raised (mkException ValueError "boom"),
     {| world := signalled Sample.world;
        calls := [call_on_error (mkException ValueError "boom")
                    (Some Sample.button) (Some Sample.context)] |}).
Proof. vm_compute. reflexivity. Qed.

Lemma callback_exception_contained_witness :
  (∃ s', _handle_callback Sample.failing Sample.button Sample.context Sample.store
         = (Returned tt, s') ∧
         calls s' = [call_on_error (mkException ValueError "boom")
                       (Some Sample.button) (Some Sample.context)] ∧
         view (world s') = view (signalled Sample.world)) ∧
  (_handle_callback Sample.cancelled Sample.button Sample.context Sample.store).1
  = Raised (mkException CancelledError "") ∧
  ∃ s', (_handle_callback Sample.failing Sample.button Sample.context Sample.store).2
        = s' ∧
        _process_interactions Sample.failing Sample.button_press s'
        = (Returned tt,
           {| world := dispatched "a" (world s');
              calls := calls s' ++ [create_task Sample.button
                                      (dispatch_context "a" (world s'))] |}).
Proof.
  destruct (callback_exception_contained Sample.failing
              Sample.button Sample.context Sample.store
              (mkException ValueError "boom") (signalled Sample.world))
    as (before & Hbefore & Hcaught & _ & Hnext).
  { eapply raises_in_callback; reflexivity. }
  destruct (Hcaught eq_refl) as [Hrun Hdefault].
  destruct (Hdefault eq_refl) as (s' & Hreturns & Hview).
  destruct (callback_exception_contained Sample.cancelled
              Sample.button Sample.context Sample.store
              (mkException CancelledError "") (signalled Sample.world))
    as (before' & Hbefore' & _ & Hescapes & _).
  { eapply raises_in_callback; reflexivity. }
  split_and!.
  - exists s'. split; [exact Hreturns |]. split; [| exact Hview].
    assert (s' = (_handle_callback Sample.failing Sample.button Sample.context
                    Sample.store).2) as -> by (by rewrite Hreturns).
    vm_compute. reflexivity.
  - rewrite (Hescapes eq_refl). reflexivity.
  - eexists. split; [reflexivity |].
    rewrite (Hnext Sample.button_press "a" {| message_id := 7 |}
               (dispatched "a"
                  (world (_handle_callback Sample.failing Sample.button
                            Sample.context Sample.store).2)) eq_refl).
    + vm_compute. reflexivity.
    + vm_compute. discriminate.
    + vm_compute. by repeat constructor.
    + vm_compute. reflexivity.
Defined.

End ViewRuns.

(** * Further properties *)

(** ** The registry *)

Section RegistryExtras.

Import EventManager.

Implicit Types (w : World) (h g : Handler) (k : Key) (ks : list Key).

Lemma lookup_foldl_insert h ks : ∀ (m : gmap Key Handler) k,
  foldl (λ m k, <[k := h]> m) m ks !! k
  = if decide (k ∈ ks) then Some h else m !! k.
Proof.
  induction ks as [|k0 ks IH]; intros m k; cbn [foldl].
  - by rewrite decide_False by apply not_elem_of_nil.
  - rewrite IH. destruct (decide (k ∈ ks)) as [Hin|Hout].
    + by rewrite decide_True by by right.
    + destruct (decide (k = k0)) as [->|Hne].
      * by rewrite lookup_insert_eq, decide_True by apply list_elem_of_here.
      * rewrite lookup_insert_ne by done. rewrite decide_False; [done |].
        rewrite elem_of_cons. by intros [?|?].
Qed.

Lemma add_loop_unowned h ks : ∀ w,
  NoDup ks → (∀ k, k ∈ ks → reg (_events w) !! k = None) →
  for_each ks (add_key h) w
  = (Returned tt,
     {| _events := {| reg := foldl (λ m k, <[k := h]> m) (reg (_events w)) ks;
                      item_handlers := item_handlers (_events w) |};
        trace := trace w ++ ((λ k, Assigned k h) <$> ks) |}).
Proof.
  induction ks as [|k ks IH]; intros w Hnd Hfree; simpl.
  - rewrite app_nil_r. by destruct w as [[] ?].
  - apply NoDup_cons in Hnd as [Hk Hnd].
    erewrite bind_eq_returned;
      [| by rewrite add_key_eq, (Hfree k) by apply list_elem_of_here].
    rewrite IH; [| done |].
    + simpl. by rewrite <-app_assoc.
    + intros k' Hin. simpl. rewrite lookup_insert_ne by (by intros ->).
      by apply Hfree, list_elem_of_further.
Qed.

Lemma add_unowned_eq h ks w :
  NoDup ks → (∀ k, k ∈ ks → get (_events w) k = None) →
  add h ks w = (Returned tt, registered_under h ks w).
Proof.
  intros Hnd Hfree. unfold add.
  erewrite bind_eq_returned by by apply add_loop_unowned. done.
Qed.

(** X1. Registering a handler under distinct keys that nobody owns:
    [add] returns, stops nobody, makes each of the keys resolve to the
    handler and leaves every other key and every other handler's record
    as they were. *)
Theorem add_unowned_keys h ks w :
  NoDup ks → (∀ k, k ∈ ks → get (_events w) k = None) →
  ∃ w', add h ks w = (Returned tt, w') ∧
    (∀ k, get (_events w') k = if decide (k ∈ ks) then Some h else get (_events w) k) ∧
    item_handlers (_events w') !! h = Some ks ∧
    (∀ g, g ≠ h → item_handlers (_events w') !! g = item_handlers (_events w) !! g) ∧
    trace w' = trace w ++ ((λ k, Assigned k h) <$> ks).
Proof.
  intros Hnd Hfree. exists (registered_under h ks w).
  split; [by apply add_unowned_eq |]. split_and!; simpl.
  - intros k. apply lookup_foldl_insert.
  - apply lookup_insert_eq.
  - intros g Hne. by rewrite lookup_insert_ne.
  - done.
Qed.

Lemma pop_registered_under h ks w :
  (∀ k, k ∈ ks → get (_events w) k = None) →
  item_handlers (_events w) !! h = None →
  pop h (registered_under h ks w)
  = (Returned tt, popped h ks (registered_under h ks w)) ∧
  _events (popped h ks (registered_under h ks w)) = _events w.
Proof.
  intros Hfree Hnone. split.
  - rewrite pop_eq. simpl. by rewrite lookup_insert_eq.
  - destruct w as [[m ih] t]. simpl in *. f_equal.
    + apply map_eq. intros k. rewrite lookup_without, lookup_foldl_insert.
      destruct (decide (k ∈ ks)) as [Hin|]; [| done]. symmetry. by apply Hfree.
    + apply map_eq. intros g. destruct (decide (g = h)) as [->|Hne].
      * by rewrite lookup_delete_eq.
      * by rewrite lookup_delete_ne, lookup_insert_ne.
Qed.

(** X2. Registering a handler that has no record under distinct unowned
    keys and then removing it gives back the two dictionaries of the
    registry exactly as they were. *)
Theorem add_then_pop_restores h ks w :
  NoDup ks → (∀ k, k ∈ ks → get (_events w) k = None) →
  item_handlers (_events w) !! h = None →
  ∃ w1 w2, add h ks w = (Returned tt, w1) ∧ pop h w1 = (Returned tt, w2) ∧
           _events w2 = _events w.
Proof.
  intros Hnd Hfree Hnone.
  destruct (pop_registered_under h ks w Hfree Hnone) as [Hpop Hsame].
  exists (registered_under h ks w), (popped h ks (registered_under h ks w)).
  split; [by apply add_unowned_eq | done].
Qed.

Lemma add_loop_outcome_consistent h ks : ∀ w,
  consistent w → consistent (for_each ks (add_key h) w).2.
Proof.
  induction ks as [|k ks IH]; intros w Hc; simpl; [done |].
  unfold mbind, Py_bind.
  destruct (add_key h k w) as [[[]|e] w1] eqn:Hstep.
  - apply IH. by eapply add_key_consistent.
  - simpl. rewrite add_key_eq in Hstep.
    destruct (reg (_events w) !! k) as [g|]; [| done].
    destruct (item_handlers (_events w) !! g); [done |].
    by injection Hstep as _ <-.
Qed.

(** X3. Whatever [add] and [pop] do, return or raise, they leave a
    consistent registry consistent: every key recorded for a handler
    resolves to that handler. *)
Theorem registry_stays_consistent h ks w :
  consistent w → consistent (add h ks w).2 ∧ consistent (pop h w).2.
Proof.
  intros Hc. split.
  - destruct (add h ks w) as [[[]|e] w'] eqn:Hadd; [by eapply add_consistent |].
    unfold add, mbind, Py_bind in Hadd.
    pose proof (add_loop_outcome_consistent h ks w Hc) as Hloop.
    destruct (for_each ks (add_key h) w) as [[[]|e'] w1]; [done |].
    by injection Hadd as _ <-.
  - destruct (pop h w) as [[[]|e] w'] eqn:Hpop; [by eapply pop_consistent |].
    rewrite pop_eq in Hpop. destruct (item_handlers (_events w) !! h); [done |].
    by injection Hpop as _ <-.
Qed.

End RegistryExtras.

Section RegistryFrame.

Import EventManager.

Implicit Types (w : World) (h g : Handler) (k : Key) (ks : list Key).

Lemma add_key_frame h k w w1 g :
  consistent w → add_key h k w = (Returned tt, w1) →
  g ≠ h → reg (_events w) !! k ≠ Some g →
  item_handlers (_events w1) !! g = item_handlers (_events w) !! g ∧
  ∀ k', reg (_events w1) !! k' = Some g ↔ reg (_events w) !! k' = Some g.
Proof.
  intros Hc [[Hk ->]|(g0 & ks0 & Hk & Hg0 & ->)]%add_key_returned Hgh Hnot; simpl.
  - split; [done |]. intros k'. destruct (decide (k' = k)) as [->|Hne].
    + rewrite lookup_insert_eq, Hk. split; congruence.
    + by rewrite lookup_insert_ne.
  - assert (g0 ≠ g) as Hg0g by congruence.
    split; [by rewrite lookup_delete_ne |].
    intros k'. destruct (decide (k' = k)) as [->|Hne].
    + rewrite lookup_insert_eq, Hk. split; congruence.
    + rewrite lookup_insert_ne, lookup_without by done.
      destruct (decide (k' ∈ ks0)) as [Hin|]; [| done].
      pose proof (Hc _ _ _ Hg0 Hin). split; congruence.
Qed.

Lemma add_loop_frame h ks g : ∀ w w',
  consistent w → for_each ks (add_key h) w = (Returned tt, w') →
  g ≠ h → (∀ k, k ∈ ks → reg (_events w) !! k ≠ Some g) →
  item_handlers (_events w') !! g = item_handlers (_events w) !! g ∧
  ∀ k', reg (_events w') !! k' = Some g ↔ reg (_events w) !! k' = Some g.
Proof.
  induction ks as [|k ks IH]; intros w w' Hc; simpl.
  - by intros [= <-].
  - intros ([] & w1 & Hstep & Hrest)%bind_returned Hgh Hnot.
    destruct (add_key_frame h k w w1 g Hc Hstep Hgh) as [Hrec1 Hown1];
      [apply Hnot, list_elem_of_here |].
    destruct (IH w1 w') as [Hrec Hown];
      [by eapply add_key_consistent | done | done | |].
    { intros k' Hin. rewrite Hown1. by apply Hnot, list_elem_of_further. }
    split; [congruence |]. intros k'. by rewrite Hown, Hown1.
Qed.

(** X4. A completed [add] in a consistent registry does not disturb a
    handler that owns none of the keys of the call: its record is the
    same, and it owns exactly the keys it owned. *)
Theorem add_leaves_unrelated_handlers h ks w w' g :
  consistent w → add h ks w = (Returned tt, w') →
  g ≠ h → (∀ k, k ∈ ks → get (_events w) k ≠ Some g) →
  item_handlers (_events w') !! g = item_handlers (_events w) !! g ∧
  ∀ k, get (_events w') k = Some g ↔ get (_events w) k = Some g.
Proof.
  intros Hc (w1 & Hloop & ->)%add_returned_inv Hgh Hnot.
  destruct (add_loop_frame h ks g w w1 Hc Hloop Hgh Hnot) as [Hrec Hown].
  split; [| done]. simpl. by rewrite lookup_insert_ne.
Qed.

(** X5. Registration, dispatch and removal compose.  Once a handler is
    registered under the identifier of a message, a component event on
    that message whose [custom_id] is not registered is handed to that
    handler; once the handler is removed the same event is dropped. *)
Theorem register_dispatch_remove
    (process : Handler → InteractionCreateEvent → Py World unit)
    h (message : Message) (custom_id_ : string) w :
  get (_events w) (key_int (message_id message)) = None →
  get (_events w) (key_str custom_id_) = None →
  let event := {| interaction := ComponentInteraction custom_id_ message |} in
  ∃ w1 w2,
    add h [key_int (message_id message)] w = (Returned tt, w1) ∧
    on_inter _events process event w1 = process h event w1 ∧
    pop h w1 = (Returned tt, w2) ∧
    on_inter _events process event w2 = (Returned tt, w2).
Proof.
  intros Hmessage Hcustom event.
  assert (NoDup [key_int (message_id message)]) as Hnd by apply NoDup_singleton.
  assert (∀ k, k ∈ [key_int (message_id message)] → get (_events w) k = None) as Hfree
    by (by intros k ->%list_elem_of_singleton).
  pose proof (add_unowned_eq h _ w Hnd Hfree) as Hadd.
  unfold get in Hcustom.
  eexists _, _. split; [exact Hadd |]. split_and!.
  - unfold on_inter, event. simpl. unfold mbind, Py_bind, reads, mret, Py_ret, get.
    simpl. rewrite lookup_insert_ne by done. rewrite Hcustom. simpl.
    by rewrite lookup_insert_eq.
  - rewrite pop_eq. simpl. by rewrite lookup_insert_eq.
  - unfold on_inter, event. simpl. unfold mbind, Py_bind, reads, mret, Py_ret, get.
    simpl. rewrite lookup_delete_ne, lookup_insert_ne by done.
    rewrite Hcustom. simpl. by rewrite lookup_delete_eq.
Qed.

End RegistryFrame.

(** ** Subclassing *)

Lemma decorated_of_app (values more : list ClassValue) :
  decorated_of (values ++ more) = decorated_of values ++ decorated_of more.
Proof. apply omap_app. Qed.

Lemma collect_class_eq base_cls : ∀ children,
  collect_class children base_cls = children ++ decorated_of base_cls.
Proof.
  unfold collect_class, decorated_of.
  induction base_cls as [|[d|] rest IH]; intros children; simpl.
  - by rewrite app_nil_r.
  - by rewrite IH, <-app_assoc.
  - apply IH.
Qed.

Lemma collect_classes_eq classes : ∀ children,
  foldl collect_class children classes
  = children ++ decorated_of (concat classes).
Proof.
  induction classes as [|base_cls classes IH]; intros children; simpl.
  - by rewrite app_nil_r.
  - by rewrite IH, collect_class_eq, decorated_of_app, app_assoc.
Qed.

Lemma __init_subclass___eq {S} (mro : list (list ClassValue)) (s : S) :
  __init_subclass__ mro s =
  if bool_decide (length (decorated_of (concat (reverse mro))) ≤ 25)
  then (Returned (decorated_of (concat (reverse mro))), s)
  else (Raised (mkException ValueError
                  "View cannot have more than 25 components attached."), s).
Proof.
  unfold __init_subclass__. rewrite collect_classes_eq. simpl.
  destruct (bool_decide (25 < _)) eqn:Hmore.
  - apply bool_decide_eq_true in Hmore. by rewrite bool_decide_eq_false_2 by lia.
  - apply bool_decide_eq_false in Hmore. by rewrite bool_decide_eq_true_2 by lia.
Qed.

(** X6. [__init_subclass__] keeps the decorated values of the classes of
    the MRO, base classes first and each class in the order of its
    [__dict__]: what it returns is that list, of at most 25 items; it
    returns whenever the list has at most 25 items, and raises
    [ValueError] when it has more. *)
Theorem __init_subclass___collects {S} (mro : list (list ClassValue)) (s : S) :
  (∀ children (s' : S),
     __init_subclass__ mro s = (Returned children, s') →
     children = decorated_of (concat (reverse mro)) ∧ length children ≤ 25) ∧
  (length (decorated_of (concat (reverse mro))) ≤ 25 →
   __init_subclass__ mro s = (Returned (decorated_of (concat (reverse mro))), s)) ∧
  (25 < length (decorated_of (concat (reverse mro))) →
   __init_subclass__ mro s
   = (Raised (mkException ValueError
                "View cannot have more than 25 components attached."), s)).
Proof.
  rewrite __init_subclass___eq. split_and!.
  - intros children s'. destruct (bool_decide _) eqn:Hle; [| done].
    apply bool_decide_eq_true in Hle. by intros [= <- _].
  - intros Hle. by rewrite bool_decide_eq_true_2.
  - intros Hmore. by rewrite bool_decide_eq_false_2 by lia.
Qed.

Lemma __init_subclass___collects_witness :
  __init_subclass__ [Scenario.sub_class; Scenario.base_class] tt
  = (Returned [Scenario.first; Scenario.second], tt).
Proof.
  refine (proj1 (proj2 (__init_subclass___collects
                          [Scenario.sub_class; Scenario.base_class] tt)) _).
  vm_compute. lia.
Defined.

(** X7. A subclass inherits the decorated items of its bases and adds its
    own after them, also when one of its own has the name of an inherited
    one: nothing is replaced.  It is refused when the inherited items and
    its own are more than 25 together. *)
Theorem __init_subclass___inherits {S} (own : list ClassValue)
    (bases : list (list ClassValue)) (inherited : list DecoratedItem) (s : S) :
  __init_subclass__ bases s = (Returned inherited, s) →
  __init_subclass__ (own :: bases) s =
  if bool_decide (length inherited + length (decorated_of own) ≤ 25)
  then (Returned (inherited ++ decorated_of own), s)
  else (Raised (mkException ValueError
                  "View cannot have more than 25 components attached."), s).
Proof.
  rewrite !__init_subclass___eq. intros Hbases.
  assert (inherited = decorated_of (concat (reverse bases))) as ->.
  { destruct (bool_decide _); congruence. }
  rewrite reverse_cons, concat_app. simpl. rewrite app_nil_r.
  by rewrite decorated_of_app, length_app.
Qed.

Lemma __init_subclass___inherits_witness :
  __init_subclass__ [Scenario.base_class] tt = (Returned [Scenario.first], tt) ∧
  __init_subclass__ [Scenario.sub_class; Scenario.base_class] tt
  = (Returned [Scenario.first; Scenario.second], tt).
Proof.
  assert (__init_subclass__ [Scenario.base_class] tt = (Returned [Scenario.first], tt))
    as Hbase by reflexivity.
  split; [exact Hbase |].
  exact (__init_subclass___inherits Scenario.sub_class [Scenario.base_class]
           [Scenario.first] tt Hbase).
Defined.

(** ** Starting a view *)

Section StartExtras.

Variable isinstance_Button : Item → bool.
Variable url : Item → option string.

Lemma only_links_true (v : View.t) :
  only_links isinstance_Button url v = true ↔
  ∀ item, item ∈ View.children v →
          isinstance_Button item = true ∧ url item ≠ None.
Proof.
  unfold only_links. rewrite forallb_forall. split.
  - intros Hall item Hin%list_elem_of_In. apply Hall in Hin.
    apply andb_true_iff in Hin as [? ?%bool_decide_eq_true]. done.
  - intros Hall item Hin%list_elem_of_In. destruct (Hall item Hin) as [-> Hurl].
    simpl. by apply bool_decide_eq_true.
Qed.

Lemma start_eq (message : StartArgument) (s : Attached) :
  start isinstance_Button url message s =
  if only_links isinstance_Button url (attached_view s) then (Returned tt, s)
  else
    match awaited message s with
    | (Returned (a_message m), s') =>
        (Raised (mkException AttributeError
                   "'EventManager' object has no attribute 'subscribe'"),
         bound_to m s')
    | (Returned not_a_message, s') =>
        (Raised (mkException TypeError
                   "Parameter message must be an instance of 'hikari.Message'"), s')
    | (Raised error, s') => (Raised error, s')
    end.
Proof.
  unfold start, awaited, mbind, Py_bind, reads, mret, Py_ret. simpl.
  destruct (only_links isinstance_Button url (attached_view s)); [done |].
  destruct message as [[m|]|result]; simpl; try done.
  destruct (result s) as [[[m|]|error] s']; done.
Qed.

(** X8. A view whose items are all link buttons, and so a view that has
    no item at all, is not started: [start] returns without awaiting or
    checking its argument, binds the view to no message and leaves the
    registry alone. *)
Theorem start_skips_link_only_views (message : StartArgument) (s : Attached) :
  (∀ item, item ∈ View.children (attached_view s) →
           isinstance_Button item = true ∧ url item ≠ None) →
  start isinstance_Button url message s = (Returned tt, s).
Proof. intros Hall%only_links_true. by rewrite start_eq, Hall. Qed.

(** X9. On a view that has another item, an argument that is not a
    message, or that awaits to something that is not one, makes [start]
    raise [TypeError]; the view is not bound and nothing is registered. *)
Theorem start_rejects_non_message (message : StartArgument) (s s' : Attached) :
  only_links isinstance_Button url (attached_view s) = false →
  awaited message s = (Returned not_a_message, s') →
  start isinstance_Button url message s
  = (Raised (mkException TypeError
               "Parameter message must be an instance of 'hikari.Message'"), s').
Proof. intros Hlinks Hvalue. by rewrite start_eq, Hlinks, Hvalue. Qed.

(** X10. On a view that has another item, given a message, [start] binds
    the view to the message and then raises [AttributeError], because
    the registry has no method [subscribe]: the view is left bound,
    [is_bound] holds, and the registry is as it was, so no event will
    reach the view. *)
Theorem start_binds_then_raises (message : StartArgument) (m : Message)
    (s s' : Attached) :
  only_links isinstance_Button url (attached_view s) = false →
  awaited message s = (Returned (a_message m), s') →
  ∃ s'', start isinstance_Button url message s
         = (Raised (mkException AttributeError
                      "'EventManager' object has no attribute 'subscribe'"), s'') ∧
         _message s'' = Some m ∧
         View._message_id (attached_view s'') = Some (message_id m) ∧
         is_bound (attached_view s'') = true ∧
         registry s'' = registry s'.
Proof.
  intros Hlinks Hvalue. exists (bound_to m s').
  by rewrite start_eq, Hlinks, Hvalue.
Qed.

End StartExtras.

(** X11. [start_listener] never returns and never changes the registry:
    it raises [ValueError] on a view that is not persistent and
    [AttributeError] on one that is. *)
Theorem start_listener_always_raises (v : View.t) (w : EventManager.World) :
  ∃ error, start_listener v w = (Raised error, w) ∧
           exc_class error
           = if View.is_persistent v then AttributeError else ValueError.
Proof.
  unfold start_listener. destruct (View.is_persistent v); by eexists.
Qed.

(** ** Looking up a view *)

Section GetViewExtras.

Variable isinstance_View : Handler → bool.

Lemma get_view_eq (message : MessageArgument) (s : Library) :
  get_view isinstance_View message s =
  match _app s with
  | None =>
      (Raised (mkException RuntimeError
                 "miru is not yet loaded! Please call miru.load() first."), s)
  | Some _ =>
      match EventManager.get (EventManager._events (library_registry s))
              (key_int (Snowflake message)) with
      | Some handler =>
          (Returned (if isinstance_View handler then Some handler else None), s)
      | None => (Returned None, s)
      end
  end.
Proof.
  unfold get_view, mbind, Py_bind, reads, mret, Py_ret. simpl.
  destruct (_app s); [| done].
  destruct (EventManager.get _ _) as [handler|]; [| done].
  by destruct (isinstance_View handler).
Qed.

(** X12. [get_view] reads only: it leaves the store as it was.  Before
    the library is loaded it raises [RuntimeError] whatever is
    registered; once loaded it does not raise, and a handler it returns
    is a [View] registered under the identifier of the message, never
    one registered under a [custom_id] only. *)
Theorem get_view_sound (message : MessageArgument) (s : Library) :
  (get_view isinstance_View message s).2 = s ∧
  (_app s = None →
   (get_view isinstance_View message s).1
   = Raised (mkException RuntimeError
               "miru is not yet loaded! Please call miru.load() first.")) ∧
  (is_Some (_app s) → ∃ found, (get_view isinstance_View message s).1 = Returned found) ∧
  (∀ handler, (get_view isinstance_View message s).1 = Returned (Some handler) →
     isinstance_View handler = true ∧
     EventManager.get (EventManager._events (library_registry s))
       (key_int (Snowflake message)) = Some handler).
Proof.
  rewrite get_view_eq. destruct (_app s) as [app|].
  - destruct (EventManager.get _ _) as [h|] eqn:Hget.
    + split_and!; [done | done | by eexists |].
      intros handler. simpl. destruct (isinstance_View h) eqn:Hview; [| done].
      by intros [= <-].
    + split_and!; [done | done | by eexists | done].
  - split_and!; [done | done | by intros [? ?] | done].
Qed.

(** X13. Once the library is loaded, a view that a completed [add]
    registered under the identifier of a message is what [get_view]
    returns for that message, given by its identifier or as an object. *)
Theorem get_view_after_add h ks (m : Message) app (w w' : EventManager.World) :
  consistent w → EventManager.add h ks w = (Returned tt, w') →
  key_int (message_id m) ∈ ks → isinstance_View h = true →
  let s := {| _app := Some app; library_registry := w' |} in
  get_view isinstance_View (message_by_object m) s = (Returned (Some h), s) ∧
  get_view isinstance_View (message_by_id (message_id m)) s = (Returned (Some h), s).
Proof.
  intros Hc Hadd Hin Hview s.
  destruct (add_takes_over h ks w w' _ Hc Hadd Hin) as [Hget _].
  rewrite !get_view_eq. simpl. by rewrite Hget, Hview.
Qed.

(** X14. Once a handler is removed, [get_view] finds nothing for a
    message whose identifier was recorded for it. *)
Theorem get_view_after_pop h ks (m : Message) app (w : EventManager.World) :
  EventManager.item_handlers (EventManager._events w) !! h = Some ks →
  key_int (message_id m) ∈ ks →
  ∃ w', EventManager.pop h w = (Returned tt, w') ∧
        get_view isinstance_View (message_by_object m)
          {| _app := Some app; library_registry := w' |}
        = (Returned None, {| _app := Some app; library_registry := w' |}).
Proof.
  intros Hrec Hin. exists (popped h ks w). rewrite pop_eq, Hrec. split; [done |].
  rewrite get_view_eq. simpl. unfold EventManager.get. simpl.
  by rewrite lookup_without, decide_True.
Qed.

End GetViewExtras.

(** ** Dispatch and tasks *)

Section CoroutineExtras.

Import View.

Implicit Types (w : World) (s : Store) (item : Item) (context : ViewContext).

(** X15. An event that matches an item and that the check rejects
    creates no task, yet it has replaced the view's last context: the
    check already runs in a world where [_last_context] is the context of
    the rejected event. *)
Theorem rejected_event_replaces_last_context (M : Methods)
    (event : InteractionCreateEvent) custom_id_ message s w' :
  interaction event = ComponentInteraction custom_id_ message →
  matching custom_id_ (view (world s)) ≠ [] →
  view_check M (dispatch_context custom_id_ (world s))
    (dispatched custom_id_ (world s)) = (Returned false, w') →
  _process_interactions M event s = (Returned tt, {| world := w'; calls := calls s |}) ∧
  _last_context (view (dispatched custom_id_ (world s)))
  = Some (dispatch_context custom_id_ (world s)).
Proof.
  intros Hevent Hsome Hcheck. split; [| done].
  rewrite _process_interactions_eq, Hevent. cbv zeta.
  rewrite bool_decide_eq_true_2, Hcheck; [done |].
  destruct (matching custom_id_ (view (world s))); [done | simpl; lia].
Qed.

(** X16. With the check of [view.py], an event that matches items
    creates one task for each of them, in the order of the view's
    children, all on one context, and that context is what
    [last_context] returns afterwards. *)
Theorem dispatch_creates_tasks_on_last_context (M : Methods)
    (event : InteractionCreateEvent) custom_id_ message s :
  view_check M = default_view_check →
  interaction event = ComponentInteraction custom_id_ message →
  matching custom_id_ (view (world s)) ≠ [] →
  Forall (λ item, isinstance_ViewItem item = true)
         (matching custom_id_ (view (world s))) →
  ∃ s' context,
    _process_interactions M event s = (Returned tt, s') ∧
    made s s' = (λ item, create_task item context)
                  <$> matching custom_id_ (view (world s)) ∧
    last_context (view (world s')) s' = (Returned (Some context), s') ∧
    children (view (world s')) = children (view (world s)).
Proof.
  intros Hcheck Hevent Hsome Hall.
  eexists _, (dispatch_context custom_id_ (world s)).
  split; [by eapply _process_interactions_creates_tasks |].
  split_and!; [apply made_app | done | done].
Qed.

(** X17. With the [on_error] of [view.py], no instance of [Exception]
    leaves a task: when a task raises, what it raises is an exception
    that [except Exception] does not catch. *)
Theorem task_raises_only_base_exceptions
    (refresh : Item → ComponentInteraction_ → Behaviour unit)
    (callback : Item → ViewContext → Behaviour unit)
    (defer_ : ViewContext → Behaviour unit) item context s error s' :
  _handle_callback (default_methods refresh callback defer_) item context s
  = (Raised error, s') →
  isinstance_Exception error = false.
Proof.
  rewrite _handle_callback_eq.
  assert (∀ e before w,
            caught (default_methods refresh callback defer_) item context e before w
            = (Raised error, s') → isinstance_Exception error = false) as Hcaught.
  { intros e before w. unfold caught. destruct (isinstance_Exception e) eqn:He.
    - simpl. discriminate.
    - intros [= <- _]. done. }
  simpl.
  destruct (refresh item _ _) as [[[]|e1] w1]; [| apply Hcaught].
  destruct (callback item context w1) as [[[]|e2] w2]; [| apply Hcaught].
  destruct (should_defer context (clock (world s)) w2); [| discriminate].
  destruct (defer_ context w2) as [[[]|e3] w3]; [discriminate | apply Hcaught].
Qed.

(** X18. Whatever the callbacks and hooks do, a task creates no task,
    calls [context.defer()] at most once and [on_error] at most once, and
    when it calls both, [defer] comes first: [on_error] is then given the
    exception [defer] raised. *)
Theorem task_call_discipline (M : Methods) item context s :
  let calls_made := made s (_handle_callback M item context s).2 in
  calls_made = [] ∨
  calls_made = [context_defer context] ∨
  ∃ error, isinstance_Exception error = true ∧
    (calls_made = [call_on_error error (Some item) (Some context)] ∨
     calls_made = [context_defer context;
                   call_on_error error (Some item) (Some context)] ∧
     ∃ w2 w3, defer M context w2 = (Raised error, w3)).
Proof.
  intros calls_made. subst calls_made. rewrite _handle_callback_made.
  assert (∀ error, on_error_calls item context error = [] ∨
                   isinstance_Exception error = true ∧
                   on_error_calls item context error
                   = [call_on_error error (Some item) (Some context)]) as Hcalls.
  { intros error. unfold on_error_calls.
    destruct (isinstance_Exception error); [by right | by left]. }
  destruct (item_refresh M item _ _) as [[[]|e1] w1].
  2: { destruct (Hcalls e1) as [->|[He ->]]; [by left | right; right; eauto]. }
  destruct (item_callback M item context w1) as [[[]|e2] w2].
  2: { destruct (Hcalls e2) as [->|[He ->]]; [by left | right; right; eauto]. }
  destruct (should_defer context (clock (world s)) w2); [| by left].
  destruct (defer M context w2) as [[[]|e3] w3] eqn:Hdefer; [right; by left |].
  destruct (Hcalls e3) as [->|[He ->]]; [right; by left |].
  right; right. exists e3. split; [done |]. right. eauto.
Qed.

End CoroutineExtras.

(** ** Concrete runs of the further properties *)

Section ExtraRuns.

Import EventManager.

Lemma add_unowned_keys_witness :
  ∃ w', add 1 [Sample.a; Sample.b] initial = (Returned tt, w') ∧
        get (_events w') Sample.a = Some 1 ∧
        get (_events w') (key_str "c") = None ∧
        trace w' = [Assigned Sample.a 1; Assigned Sample.b 1].
Proof.
  destruct (add_unowned_keys 1 [Sample.a; Sample.b] initial)
    as (w' & Hadd & Hget & _ & _ & Htrace).
  { apply NoDup_cons. split; [by intros [=]%list_elem_of_singleton |].
    apply NoDup_singleton. }
  { intros k _. reflexivity. }
  exists w'. split_and!; [exact Hadd | | | exact Htrace].
  - rewrite Hget. apply decide_True, list_elem_of_here.
  - rewrite Hget. apply decide_False.
    intros [[=]|[=]%list_elem_of_singleton]%elem_of_cons.
Defined.

Lemma add_then_pop_restores_witness :
  ∃ w1 w2, add 1 [Sample.a; Sample.b] initial = (Returned tt, w1) ∧
           pop 1 w1 = (Returned tt, w2) ∧ _events w2 = __init__.
Proof.
  destruct (add_then_pop_restores 1 [Sample.a; Sample.b] initial)
    as (w1 & w2 & Hadd & Hpop & Hsame).
  { apply NoDup_cons. split; [by intros [=]%list_elem_of_singleton |].
    apply NoDup_singleton. }
  { intros k _. reflexivity. }
  { reflexivity. }
  exists w1, w2. split_and!; [exact Hadd | exact Hpop | exact Hsame].
Defined.

Lemma registry_stays_consistent_witness :
  returned (add 1 [Sample.a; Sample.a] initial) = false ∧
  consistent (add 1 [Sample.a; Sample.a] initial).2 ∧
  consistent (pop 1 initial).2.
Proof.
  split; [reflexivity |].
  exact (registry_stays_consistent 1 [Sample.a; Sample.a] initial consistent_initial).
Defined.

Lemma add_leaves_unrelated_handlers_witness :
  add 2 [Sample.b] Sample.registered = (Returned tt, Scenario.two_handlers) ∧
  item_handlers (_events Scenario.two_handlers) !! 1 = Some [Sample.a] ∧
  get (_events Scenario.two_handlers) Sample.a = Some 1.
Proof.
  assert (add 2 [Sample.b] Sample.registered = (Returned tt, Scenario.two_handlers))
    as Hadd by (vm_compute; reflexivity).
  assert (consistent Sample.registered) as Hc.
  { apply (add_consistent 1 [Sample.a] initial); [apply consistent_initial |].
    vm_compute. reflexivity. }
  destruct (add_leaves_unrelated_handlers 2 [Sample.b] Sample.registered
              Scenario.two_handlers 1 Hc Hadd) as [Hrec Hown].
  { discriminate. }
  { intros k ->%list_elem_of_singleton. vm_compute. discriminate. }
  split; [exact Hadd |]. split.
  - etrans; [exact Hrec |]. vm_compute. reflexivity.
  - apply Hown. vm_compute. reflexivity.
Defined.

Lemma register_dispatch_remove_witness :
  ∃ w1 w2,
    add 1 [Scenario.panel_key] initial = (Returned tt, w1) ∧
    on_inter _events Scenario.ignore Sample.unknown_button_press w1
    = Scenario.ignore 1 Sample.unknown_button_press w1 ∧
    pop 1 w1 = (Returned tt, w2) ∧
    on_inter _events Scenario.ignore Sample.unknown_button_press w2 = (Returned tt, w2).
Proof.
  exact (register_dispatch_remove Scenario.ignore 1 Scenario.message "z" initial
           eq_refl eq_refl).
Defined.

End ExtraRuns.

Section ExtraViewRuns.

Import View.

Lemma start_skips_link_only_views_witness :
  start Scenario.isinstance_Button Scenario.url (value not_a_message)
    (Scenario.attached Scenario.links_only)
  = (Returned tt, Scenario.attached Scenario.links_only).
Proof.
  apply start_skips_link_only_views.
  intros item ->%list_elem_of_singleton. by split.
Defined.

Lemma start_rejects_non_message_witness :
  start Scenario.isinstance_Button Scenario.url (value not_a_message)
    (Scenario.attached Sample.view)
  = (Raised (mkException TypeError
               "Parameter message must be an instance of 'hikari.Message'"),
     Scenario.attached Sample.view).
Proof.
  exact (start_rejects_non_message Scenario.isinstance_Button Scenario.url
           (value not_a_message) (Scenario.attached Sample.view)
           (Scenario.attached Sample.view) eq_refl eq_refl).
Defined.

Lemma start_binds_then_raises_witness :
  ∃ s'', start Scenario.isinstance_Button Scenario.url
           (value (a_message Scenario.message)) (Scenario.attached Sample.view)
         = (Raised (mkException AttributeError
                      "'EventManager' object has no attribute 'subscribe'"), s'') ∧
         is_bound (attached_view s'') = true ∧
         registry s'' = EventManager.initial.
Proof.
  destruct (start_binds_then_raises Scenario.isinstance_Button Scenario.url
              (value (a_message Scenario.message)) Scenario.message
              (Scenario.attached Sample.view) (Scenario.attached Sample.view)
              eq_refl eq_refl) as (s'' & Hstart & _ & _ & Hbound & Hregistry).
  exists s''. split_and!; [exact Hstart | exact Hbound | exact Hregistry].
Defined.

Lemma get_view_sound_witness :
  (get_view Scenario.isinstance_View (message_by_id 7)
     {| _app := None; library_registry := Scenario.panel |}).1
  = Raised (mkException RuntimeError
              "miru is not yet loaded! Please call miru.load() first.") ∧
  Scenario.isinstance_View 1 = true.
Proof.
  split.
  - exact (proj1 (proj2 (get_view_sound Scenario.isinstance_View (message_by_id 7)
                           {| _app := None; library_registry := Scenario.panel |}))
             eq_refl).
  - exact (proj1 (proj2 (proj2 (proj2
             (get_view_sound Scenario.isinstance_View (message_by_id 7)
                (Scenario.loaded Scenario.panel)))) 1 eq_refl)).
Defined.

Lemma get_view_after_add_witness :
  get_view Scenario.isinstance_View (message_by_object Scenario.message)
    (Scenario.loaded Scenario.panel)
  = (Returned (Some 1), Scenario.loaded Scenario.panel).
Proof.
  refine (proj1 (get_view_after_add Scenario.isinstance_View 1 [Scenario.panel_key]
                   Scenario.message 0 EventManager.initial Scenario.panel
                   consistent_initial _ _ eq_refl)).
  - vm_compute. reflexivity.
  - apply list_elem_of_here.
Defined.

Lemma get_view_after_pop_witness :
  ∃ w', EventManager.pop 1 Scenario.panel = (Returned tt, w') ∧
        get_view Scenario.isinstance_View (message_by_object Scenario.message)
          (Scenario.loaded w')
        = (Returned None, Scenario.loaded w').
Proof.
  refine (get_view_after_pop Scenario.isinstance_View 1 [Scenario.panel_key]
            Scenario.message 0 Scenario.panel _ _).
  - vm_compute. reflexivity.
  - apply list_elem_of_here.
Defined.

Lemma rejected_event_replaces_last_context_witness :
  _process_interactions Scenario.rejecting Sample.button_press Sample.store
  = (Returned tt,
     {| world := dispatched "a" Sample.world; calls := [] |}) ∧
  _last_context (view (dispatched "a" Sample.world))
  = Some (dispatch_context "a" Sample.world).
Proof.
  refine (rejected_event_replaces_last_context Scenario.rejecting Sample.button_press
            "a" {| message_id := 7 |} Sample.store _ eq_refl _ eq_refl).
  vm_compute. discriminate.
Defined.

Lemma dispatch_creates_tasks_on_last_context_witness :
  ∃ s' context,
    _process_interactions Sample.quick Sample.button_press Sample.store
    = (Returned tt, s') ∧
    made Sample.store s' = [create_task Sample.button context] ∧
    last_context (view (world s')) s' = (Returned (Some context), s').
Proof.
  destruct (dispatch_creates_tasks_on_last_context Sample.quick Sample.button_press
              "a" {| message_id := 7 |} Sample.store eq_refl eq_refl)
    as (s' & context & Hrun & Hmade & Hlast & _).
  { vm_compute. discriminate. }
  { vm_compute. by repeat constructor. }
  exists s', context. split_and!; [exact Hrun | exact Hmade | exact Hlast].
Defined.

Lemma task_raises_only_base_exceptions_witness :
  isinstance_Exception (mkException CancelledError "") = false.
Proof.
  refine (task_raises_only_base_exceptions
            (λ _ _, Sample.returns)
            (λ _ _, Sample.raises (mkException CancelledError ""))
            (λ _, Sample.returns)
            Sample.button Sample.context Sample.store _
            {| world := signalled Sample.world; calls := [] |} _).
  vm_compute. reflexivity.
Defined.

End ExtraViewRuns.

(** ** Keys of an earlier registration *)

Section RegistryLeak.

Import EventManager.

Implicit Types (w : World) (h : Handler) (k : Key) (ks : list Key).

(** X19. A handler registered twice, under distinct unowned keys each
    time, and then removed: the keys of the second call are gone, the
    keys of the first still resolve to the handler, and the handler has
    no record left, so another [pop] cannot remove them. *)
Theorem second_add_forgets_first_keys h ks1 ks2 w :
  NoDup (ks1 ++ ks2) → (∀ k, k ∈ ks1 ++ ks2 → get (_events w) k = None) →
  ∃ w3, (add h ks1;; add h ks2;; pop h) w = (Returned tt, w3) ∧
        (∀ k, k ∈ ks1 → get (_events w3) k = Some h) ∧
        (∀ k, k ∈ ks2 → get (_events w3) k = None) ∧
        item_handlers (_events w3) !! h = None ∧
        pop h w3 = (Raised (mkException KeyError "item_handler"), w3).
Proof.
  intros Hnd Hfree. apply NoDup_app in Hnd as (Hnd1 & Hdisjoint & Hnd2).
  assert (add h ks1 w = (Returned tt, registered_under h ks1 w)) as Hadd1.
  { apply add_unowned_eq; [done |]. intros k Hin. apply Hfree.
    rewrite elem_of_app. by left. }
  assert (add h ks2 (registered_under h ks1 w)
          = (Returned tt, registered_under h ks2 (registered_under h ks1 w))) as Hadd2.
  { apply add_unowned_eq; [done |]. intros k Hin. unfold get. simpl.
    rewrite lookup_foldl_insert, decide_False by (intros ?; by eapply Hdisjoint).
    apply Hfree. rewrite elem_of_app. by right. }
  eexists. split.
  { erewrite bind_eq_returned by exact Hadd1.
    erewrite bind_eq_returned by exact Hadd2.
    rewrite pop_eq. simpl. by rewrite lookup_insert_eq. }
  assert (item_handlers
            (_events (popped h ks2 (registered_under h ks2 (registered_under h ks1 w))))
          !! h = None) as Hgone by (simpl; apply lookup_delete_eq).
  split_and!.
  - intros k Hin. unfold get. simpl.
    rewrite lookup_without, decide_False by (intros ?; by eapply Hdisjoint).
    rewrite lookup_foldl_insert, decide_False by (intros ?; by eapply Hdisjoint).
    by rewrite lookup_foldl_insert, decide_True.
  - intros k Hin. unfold get. simpl. by rewrite lookup_without, decide_True.
  - exact Hgone.
  - by rewrite pop_eq, Hgone.
Qed.

Lemma second_add_forgets_first_keys_witness :
  ∃ w3, (add 1 [Sample.a];; add 1 [Sample.b];; pop 1) initial = (Returned tt, w3) ∧
        get (_events w3) Sample.a = Some 1 ∧
        get (_events w3) Sample.b = None.
Proof.
  destruct (second_add_forgets_first_keys 1 [Sample.a] [Sample.b] initial)
    as (w3 & Hrun & Hfirst & Hsecond & _).
  { apply NoDup_cons. split; [by intros [=]%list_elem_of_singleton |].
    apply NoDup_singleton. }
  { intros k _. reflexivity. }
  exists w3. split_and!; [exact Hrun | |].
  - apply Hfirst, list_elem_of_here.
  - apply Hsecond, list_elem_of_here.
Defined.

End RegistryLeak.
